(** * SpykeWave [datatype/core.py]: the chunked array [ChunkData] and the
      lazy sequence wrapper [Indexer]

    A shallow embedding of the two classes of
    [src/spykewave/datatype/core.py] that carry the in-memory access layer:

    - [ChunkData] stitches row-partitioned 2-D arrays (typically
      [numpy.memmap] objects) into one matrix and answers 2-D slice
      queries: a NumPy view when the rows lie in one chunk, a freshly
      stacked array ([np.vstack]) when they span several;
    - [Indexer] makes a single-pass iterator subscriptable with
      [itertools.islice].

    Python integers are unbounded and are embedded as [Z]; the integers
    of NumPy are [Z] with the wrap-around of their type.  NumPy arrays
    are embedded as windows into a store of buffers, so that a view and
    the array it was sliced from share one buffer, while [np.vstack]
    allocates a new one.  Exceptions are values of [exn], and a function
    that can raise returns [res].

    On top of the two classes the development covers the segment access
    of [BaseData] ([_get_segment], [segments], [segmentshapes] and the
    [segmentlabel] setter) and the block-wise copy loop of [read_nwb] in
    [src/syncopy/io/_read_nwb.py]. *)

From stdpp Require Import prelude strings.

Local Open Scope string_scope.
Local Open Scope Z_scope.

(** ** Exceptions *)

(** The [legal] argument of [SPWValueError].  [LegalBetween lb ub] stands
    for the text ["value between {lb} and {ub}"] of the source. *)
Inductive legal :=
  | LegalText (s : string)
  | LegalBetween (lb ub : Z).

(** The [actual] argument of [SPWValueError]: absent, [str] of a number,
    or [str] of [slice(start, stop)]. *)
Inductive actual :=
  | NoActual
  | ActualNum (z : Z)
  | ActualSlice (start stop : Z).

Inductive exn :=
  | SPWTypeError (varname expected : string)
  | SPWValueError (lg : legal) (varname : string) (act : actual)
  | IndexError
  | ValueError
  | AttributeError
  | StopIteration
  | TypeError.

Inductive res (A : Type) :=
  | Ok (a : A)
  | Err (e : exn).
Arguments Ok {A} a.
Arguments Err {A} e.

#[global] Instance res_ret : MRet res := λ A a, Ok a.
#[global] Instance res_bind : MBind res := λ A B f m,
  match m with
  | Ok a => f a
  | Err e => Err e
  end.

#[global] Instance res_fmap : FMap res := λ A B f m,
  match m with
  | Ok a => Ok (f a)
  | Err e => Err e
  end.

(** A bounds error is an [SPWValueError] that names an interval. *)
Definition is_bounds_error (e : exn) : bool :=
  match e with
  | SPWValueError (LegalBetween _ _) _ _ => true
  | _ => false
  end.

(** [l[i]] for a non-negative index: [IndexError] out of range. *)
Definition list_get {A} (l : list A) (i : nat) : res A :=
  match l !! i with
  | Some a => Ok a
  | None => Err IndexError
  end.

(** Modelled from the spec: the helper [spw_scalar_parser] of
    [spykewave.utils], whose source is missing.  [core.py] calls it with
    [ntype="int_like"] and [lims=[lo, hi]] on a number.  Following the
    specification ("validates 0 <= i < L, bounds error otherwise" for the
    call with [lims=[0, L - 1]]) the limits are inclusive, and a violation
    raises a bounds error that reports the limits and the offending
    value. *)
Definition spw_scalar_parser (var : Z) (varname : string) (lims : Z * Z)
  : res unit :=
  if (var <? lims.1) || (lims.2 <? var)
  then Err (SPWValueError (LegalBetween lims.1 lims.2) varname (ActualNum var))
  else Ok ().

(** ** Python slices and NumPy arrays *)

(** [slice(start, stop)] with step 1; [None] is the omitted bound. *)
Record pyslice := Slice { sl_start : option Z; sl_stop : option Z }.

(** One bound of [slice.indices(len)] for step 1: a negative bound counts
    from the end, and every bound is clipped to [0 .. len]. *)
Definition adjust (len : Z) (i : option Z) (dflt : Z) : Z :=
  match i with
  | None => dflt
  | Some i => if i <? 0 then Z.max 0 (i + len) else Z.min i len
  end.

(** First index and number of indices selected by a slice on an axis of
    length [len]. *)
Definition slice_indices (s : pyslice) (len : nat) : nat * nat :=
  let start := adjust (Z.of_nat len) (sl_start s) 0 in
  let stop := adjust (Z.of_nat len) (sl_stop s) (Z.of_nat len) in
  (Z.to_nat start, Z.to_nat (stop - start)).
Arguments slice_indices : simpl never.

Abbreviation loc := nat.

(** A 2-D array object: a window of [nrow] rows and [ncol] columns, whose
    upper left corner is at [(row0, col0)] of the buffer at [base]. *)
Record ndarray := NdArray {
  base : loc;
  row0 : nat;
  nrow : nat;
  col0 : nat;
  ncol : nat
}.

Definition shape (a : ndarray) : Z * Z := (Z.of_nat (nrow a), Z.of_nat (ncol a)).

(** Basic slicing [a[rs, cs]]: NumPy returns a view, an array object over
    the same buffer. *)
Definition getitem2 (a : ndarray) (rs cs : pyslice) : ndarray :=
  let r := slice_indices rs (nrow a) in
  let c := slice_indices cs (ncol a) in
  {| base := base a;
     row0 := (row0 a + r.1)%nat; nrow := r.2;
     col0 := (col0 a + c.1)%nat; ncol := c.2 |}.

Definition sl_all : pyslice := Slice None None.

(** An element of a chunk list: an array-like object with a [shape]
    attribute, or some object without one.  An array-like of rank 2 is a
    window into its buffer, as [ndarray]. *)
Inductive chunk :=
  | ArrayLike (shp : list nat) (b : loc) (r0 c0 : nat)
  | NoShape.

Definition chunk_shape (c : chunk) : option (list nat) :=
  match c with
  | ArrayLike shp _ _ _ => Some shp
  | NoShape => None
  end.

(** The chunk as a 2-D array; indexing an object of another kind with two
    slices is an [IndexError]. *)
Definition as_array (c : chunk) : res ndarray :=
  match c with
  | ArrayLike [r; k] b r0 c0 =>
      Ok {| base := b; row0 := r0; nrow := r; col0 := c0; ncol := k |}
  | _ => Err IndexError
  end.

(** The memory behind the arrays: one list of rows per buffer. *)
Abbreviation store T := (list (list (list T))).

Section Store.
Context {T : Type}.

(** The rows an array object shows in a store. *)
Definition contents (σ : store T) (a : ndarray) : list (list T) :=
  match σ !! base a with
  | Some buf =>
      (λ r, take (ncol a) (drop (col0 a) r)) <$> take (nrow a) (drop (row0 a) buf)
  | None => []
  end.

(** [np.vstack(arrs)]: the arrays must agree on the number of columns and
    there must be at least one; the rows are copied to a new buffer. *)
Definition np_vstack (arrs : list ndarray) (σ : store T) : res (ndarray * store T) :=
  match arrs with
  | [] => Err ValueError
  | a0 :: _ =>
      if forallb (λ a, ncol a =? ncol a0)%nat arrs
      then Ok ({| base := length σ; row0 := 0;
                  nrow := sum_list (nrow <$> arrs);
                  col0 := 0; ncol := ncol a0 |},
               (σ ++ [mjoin (contents σ <$> arrs)])%list)
      else Err ValueError
  end.

(** Assignment [a[i, j] = x] through an array object. *)
Definition setitem (a : ndarray) (i j : nat) (x : T) (σ : store T) : store T :=
  if decide (i < nrow a ∧ j < ncol a)%nat
  then alter (alter (λ r, <[(col0 a + j)%nat := x]> r) (row0 a + i)%nat) (base a) σ
  else σ.
End Store.

(** ** [ChunkData] *)

Record ChunkData := {
  _M : Z;
  _N : Z;
  _shape : Z * Z;
  _size : Z;
  _nrows : list Z;
  _data : list chunk;
  _rows : list (Z * Z)      (* [range(start, stop)] per chunk *)
}.

(** [np.cumsum], on exact integers ([np_cumsum_int64] below is the sum in
    NumPy's 64-bit integers). *)
Fixpoint cumsum_from (acc : Z) (l : list Z) : list Z :=
  match l with
  | [] => []
  | x :: l => (acc + x) :: cumsum_from (acc + x) l
  end.
Definition np_cumsum (l : list Z) : list Z := cumsum_from 0 l.

(** [l[-1]] *)
Definition list_last {A} (l : list A) : res A :=
  match last l with
  | Some a => Ok a
  | None => Err IndexError
  end.

(** [ChunkData.__init__].  The argument is a list here, so the first test
    of the source ([chunk_list] is a list or an array) always passes.  An
    empty list gets as far as [shapes[0]], which raises [IndexError].
    The rows are counted in exact integers here: this is the constructor
    as long as the number of rows and the size stay below [2 ^ 63].
    [ChunkData_init_int64] below is the constructor with NumPy's 64-bit
    arithmetic; [init_int64_wrapped] relates the two, and by
    [init_int64_transfer] they give the same instance when nothing
    overflows. *)
Definition ChunkData_init (chunk_list : list chunk) : res ChunkData :=
  shapes ← match mapM chunk_shape chunk_list with
           | Some shapes => Ok shapes
           | None => Err (SPWTypeError "chunk in chunk_list" "2d-array-like")
           end;
  if existsb (λ shp, negb (length shp =? 2)%nat) shapes
  then Err (SPWValueError (LegalText "2d-array") "chunk in chunk_list" NoActual)
  else
    cols ← mapM (λ shp, list_get shp 1) shapes;
    shape0 ← list_get shapes 0;
    n0 ← list_get shape0 1;
    if negb (bool_decide (cols = replicate (length shapes) n0))
    then Err (SPWValueError (LegalText "identical number of samples per chunk")
                            "chunk_list" NoActual)
    else
      nrows ← mapM (λ shp, Z.of_nat <$> list_get shp 0) shapes;
      let cumlen := np_cumsum nrows in
      M ← list_last cumlen;
      c0 ← list_get chunk_list 0;
      shp0 ← match chunk_shape c0 with Some s => Ok s | None => Err AttributeError end;
      N ← Z.of_nat <$> list_get shp0 1;
      Ok {| _nrows := nrows;
            _rows := zip (zip_with Z.sub cumlen nrows) cumlen;
            _M := M;
            _N := N;
            _shape := (M, N);
            _size := M * N;
            _data := chunk_list |}.

Definition ChunkData_shape (self : ChunkData) : Z * Z := _shape self.
Definition ChunkData_size (self : ChunkData) : Z := _size self.
Definition ChunkData_len (self : ChunkData) : Z := _size self.

(** ** NumPy's integers *)

(** The integer types of NumPy arrays and scalars. *)
Inductive int_dtype :=
  | Int8 | Int16 | Int32 | Int64
  | UInt8 | UInt16 | UInt32 | UInt64.

Definition dtype_signed (dt : int_dtype) : bool :=
  match dt with
  | Int8 | Int16 | Int32 | Int64 => true
  | UInt8 | UInt16 | UInt32 | UInt64 => false
  end.

Definition dtype_bits (dt : int_dtype) : Z :=
  match dt with
  | Int8 | UInt8 => 8
  | Int16 | UInt16 => 16
  | Int32 | UInt32 => 32
  | Int64 | UInt64 => 64
  end.

(** The values of a type. *)
Definition in_dtype (dt : int_dtype) (z : Z) : Prop :=
  if dtype_signed dt
  then - 2 ^ (dtype_bits dt - 1) ≤ z < 2 ^ (dtype_bits dt - 1)
  else 0 ≤ z < 2 ^ dtype_bits dt.

(** The result of an operation whose exact value is [z]: NumPy's integer
    arithmetic wraps around, on arrays silently and on scalars with a
    warning. *)
Definition dtype_wrap (dt : int_dtype) (z : Z) : Z :=
  if dtype_signed dt
  then (z + 2 ^ (dtype_bits dt - 1)) `mod` 2 ^ dtype_bits dt - 2 ^ (dtype_bits dt - 1)
  else z `mod` 2 ^ dtype_bits dt.

(** NumPy's default integer, the type of [np.cumsum(nrows)] and of its
    elements. *)
Definition int64 (z : Z) : Z := dtype_wrap Int64 z.

(** [np.cumsum] on an [int64] array: every partial sum wraps. *)
Fixpoint cumsum_int64_from (acc : Z) (l : list Z) : list Z :=
  match l with
  | [] => []
  | x :: l => int64 (acc + x) :: cumsum_int64_from (int64 (acc + x)) l
  end.
Definition np_cumsum_int64 (l : list Z) : list Z := cumsum_int64_from 0 l.

(** The shapes of arrays: a dimension is below [2 ^ 63] (NumPy's [intp]),
    so the row counts make an [int64] array as they are. *)
Definition intp_shapes (chunk_list : list chunk) : Prop :=
  Forall (λ c, match chunk_shape c with
               | Some shp => Forall (λ d, Z.of_nat d < 2 ^ 63) shp
               | None => True
               end) chunk_list.

(** [ChunkData.__init__] with the arithmetic of NumPy, for chunks with
    the shapes of arrays: [cumlen = np.cumsum(nrows)] and
    [cumlen - nrows] are [int64] arrays, [self._M = cumlen[-1]] is an
    [int64] scalar, and so is the product [self._M*self._N]; the bounds
    of a [range] and [self._N] are Python integers. *)
Definition ChunkData_init_int64 (chunk_list : list chunk) : res ChunkData :=
  shapes ← match mapM chunk_shape chunk_list with
           | Some shapes => Ok shapes
           | None => Err (SPWTypeError "chunk in chunk_list" "2d-array-like")
           end;
  if existsb (λ shp, negb (length shp =? 2)%nat) shapes
  then Err (SPWValueError (LegalText "2d-array") "chunk in chunk_list" NoActual)
  else
    cols ← mapM (λ shp, list_get shp 1) shapes;
    shape0 ← list_get shapes 0;
    n0 ← list_get shape0 1;
    if negb (bool_decide (cols = replicate (length shapes) n0))
    then Err (SPWValueError (LegalText "identical number of samples per chunk")
                            "chunk_list" NoActual)
    else
      nrows ← mapM (λ shp, Z.of_nat <$> list_get shp 0) shapes;
      let cumlen := np_cumsum_int64 nrows in
      M ← list_last cumlen;
      c0 ← list_get chunk_list 0;
      shp0 ← match chunk_shape c0 with Some s => Ok s | None => Err AttributeError end;
      N ← Z.of_nat <$> list_get shp0 1;
      Ok {| _nrows := nrows;
            _rows := zip (zip_with (λ c n, int64 (c - n)) cumlen nrows) cumlen;
            _M := M;
            _N := N;
            _shape := (M, N);
            _size := int64 (M * N);
            _data := chunk_list |}.

(** A row or column query: a number, a slice (only [start] and [stop] are
    read), or an object of another type. *)
Inductive selector :=
  | SNum (z : Z)
  | SSlice (start stop : option Z)
  | SOther.

(** Conversion of a query to explicit [start] and [stop] values; the source
    has this block once for [qrow] (with [self._M]) and once for [qcol]
    (with [self._N]). *)
Definition as_slice (q : selector) (varname : string) (extent : Z) : res (Z * Z) :=
  match q with
  | SNum z =>
      _ ← spw_scalar_parser z varname (0, extent);
      Ok (z, z + 1)
  | SSlice start stop => Ok (default 0 start, default extent stop)
  | SOther => Err (SPWTypeError varname "int_like or slice")
  end.

(** "Make sure queried row/col are inside dimensional limits" *)
Definition check_limits (r : Z * Z) (varname : string) (extent : Z) : res unit :=
  if negb ((0 <=? r.1) && (r.1 <? extent)) || negb ((0 <? r.2) && (r.2 <=? extent))
  then Err (SPWValueError (LegalBetween 0 extent) varname (ActualSlice r.1 r.2))
  else Ok ().

(** [x in range(start, stop)] *)
Definition in_range (x : Z) (r : Z * Z) : bool := (r.1 <=? x) && (x <? r.2).

(** [np.where(bs)[0]]: the indices of the true entries. *)
Fixpoint np_where_from (i : nat) (bs : list bool) : list nat :=
  match bs with
  | [] => []
  | b :: bs => if b then i :: np_where_from (S i) bs else np_where_from (S i) bs
  end.
Definition np_where (bs : list bool) : list nat := np_where_from 0 bs.

(** [.item()]: the only element of an array of size 1. *)
Definition item (l : list nat) : res nat :=
  match l with
  | [i] => Ok i
  | _ => Err ValueError
  end.

Definition find_chunk (self : ChunkData) (x : Z) : res nat :=
  item (np_where (in_range x <$> _rows self)).

(** The branch [i1 != i2] of [__getitem__]: the rest of chunk [i1], the
    chunks in [range(i1 + 1, i2)] and the beginning of chunk [i2] are
    stacked into a new array. *)
Definition stack_chunks {T} (self : ChunkData) (row : Z * Z) (col : pyslice)
    (i1 i2 : nat) (σ : store T) : res (ndarray * store T) :=
  c1 ← list_get (_data self) i1 ≫= as_array;
  r1 ← list_get (_rows self) i1;
  let head := getitem2 c1 (Slice (Some (row.1 - r1.1)) None) col in
  mid ← mapM (λ i, c ← list_get (_data self) i ≫= as_array;
                   Ok (getitem2 c sl_all col))
             (seq (S i1) (i2 - S i1));
  c2 ← list_get (_data self) i2 ≫= as_array;
  r2 ← list_get (_rows self) i2;
  let tail := getitem2 c2 (Slice None (Some (row.2 - r2.1))) col in
  np_vstack (head :: mid ++ [tail])%list σ.

(** The branch [i1 == i2]: the global row numbers are converted to rows of
    the chunk, and [self._data[i1][row,:][:,col]] is a view of the chunk. *)
Definition view_chunk {T} (self : ChunkData) (row : Z * Z) (col : pyslice)
    (i1 : nat) (σ : store T) : res (ndarray * store T) :=
  r1 ← list_get (_rows self) i1;
  let row := Slice (Some (row.1 - r1.1)) (Some (row.2 - r1.1)) in
  c1 ← list_get (_data self) i1 ≫= as_array;
  Ok (getitem2 (getitem2 c1 row sl_all) sl_all col, σ).

(** [ChunkData.__getitem__] with [idx = (qrow, qcol)].  The call returns
    the array object together with the store, which has a new buffer when
    the rows were stacked; an error leaves the store as it was. *)
Definition ChunkData_getitem {T} (self : ChunkData) (qrow qcol : selector)
    (σ : store T) : res (ndarray * store T) :=
  row ← as_slice qrow "row" (_M self);
  col ← as_slice qcol "col" (_N self);
  _ ← check_limits row "row" (_M self);
  _ ← check_limits col "col" (_N self);
  i1 ← find_chunk self row.1;
  i2 ← find_chunk self (row.2 - 1);
  let col := Slice (Some col.1) (Some col.2) in
  if decide (i1 ≠ i2)
  then stack_chunks self row col i1 i2 σ
  else view_chunk self row col i1 σ.

(** ** [Indexer] *)

(** The iterator protocol: [next] yields an element and the advanced
    iterator, or nothing when the iterator is exhausted. *)
Class Iterator (I A : Type) := next : I → option A * I.

(** A list iterator, given by the elements it has yet to produce. *)
#[global] Instance list_iterator {A} : Iterator (list A) A := λ l,
  match l with
  | [] => (None, [])
  | x :: l => (Some x, l)
  end.

Section Indexer.
Context {I A : Type} `{!Iterator I A}.

Record Indexer := { _iterobj : I; _iterlen : Z }.

Definition Indexer_init (iterobj : I) (iterlen : Z) : Indexer :=
  {| _iterobj := iterobj; _iterlen := iterlen |}.

Definition Indexer_len (self : Indexer) : Z := _iterlen self.

(** [next(islice(it, start, start + 1))]: [islice] first draws and drops
    [start] elements of [it], then passes on the next one; as soon as
    [it] is exhausted, so is the [islice] object, and [next] raises
    [StopIteration]. *)
Fixpoint next_islice (start : nat) (it : I) : res A * I :=
  match start with
  | O =>
      match next it with
      | (Some x, it) => (Ok x, it)
      | (None, it) => (Err StopIteration, it)
      end
  | S start =>
      match next it with
      | (Some _, it) => next_islice start it
      | (None, it) => (Err StopIteration, it)
      end
  end.

(** [Indexer.__getitem__] for a number [idx], the first branch of the
    source (the branches for slices and index arrays are not embedded).
    The iterator object is shared with every other use of the indexer, so
    the call returns the indexer with the advanced iterator. *)
Definition Indexer_getitem (self : Indexer) (idx : Z) : res A * Indexer :=
  match spw_scalar_parser idx "idx" (0, _iterlen self - 1) with
  | Err e => (Err e, self)
  | Ok _ =>
      let r := next_islice (Z.to_nat idx) (_iterobj self) in
      (r.1, {| _iterobj := r.2; _iterlen := _iterlen self |})
  end.

(** A sequence of calls [self[idx]], in the order of [idxs]. *)
Fixpoint Indexer_getitems (self : Indexer) (idxs : list Z) : list (res A) * Indexer :=
  match idxs with
  | [] => ([], self)
  | idx :: idxs =>
      let r := Indexer_getitem self idx in
      let rs := Indexer_getitems r.2 idxs in
      (r.1 :: rs.1, rs.2)
  end.
End Indexer.
Arguments Indexer : clear implicits.

(** ** Examples *)

Module Examples.
(** Two chunks of shapes (3,2) and (2,2) over buffers 0 and 1. *)
Definition chunk0 : chunk := ArrayLike [3; 2]%nat 0%nat 0%nat 0%nat.
Definition chunk1 : chunk := ArrayLike [2; 2]%nat 1%nat 0%nat 0%nat.
Definition mem : store Z := [ [[1; 2]; [3; 4]; [5; 6]]; [[7; 8]; [9; 10]] ].
Definition cd32 : ChunkData :=
  {| _M := 5; _N := 2; _shape := (5, 2); _size := 10; _nrows := [3; 2];
     _data := [chunk0; chunk1]; _rows := [(0, 3); (3, 5)] |}.
End Examples.

(** ** Specification-level notions *)

(** The row ranges of chunks with the given numbers of rows, the first one
    starting at [acc]. *)
Fixpoint rows_from (acc : Z) (l : list Z) : list (Z * Z) :=
  match l with
  | [] => []
  | n :: l => (acc, acc + n) :: rows_from (acc + n) l
  end.

Fixpoint sum_Z (l : list Z) : Z :=
  match l with
  | [] => 0
  | n :: l => n + sum_Z l
  end.

(** What a successful construction establishes: [arrs] are the chunks as
    2-D arrays. *)
Record valid (self : ChunkData) (arrs : list ndarray) : Prop := {
  v_nonempty : arrs ≠ [];
  v_arrays : Forall2 (λ c a, as_array c = Ok a) (_data self) arrs;
  v_ncol : Forall (λ a, Z.of_nat (ncol a) = _N self) arrs;
  v_nrows : _nrows self = (λ a, Z.of_nat (nrow a)) <$> arrs;
  v_rows : _rows self = rows_from 0 (_nrows self);
  v_M : _M self = sum_Z (_nrows self);
  v_shape : _shape self = (_M self, _N self);
  v_size : _size self = _M self * _N self
}.

(** The instance of the exact construction as the 64-bit arithmetic
    leaves it: the bounds of the row ranges, [M] and the size wrap. *)
Definition wrapped (cd : ChunkData) : ChunkData :=
  {| _M := int64 (_M cd);
     _N := _N cd;
     _shape := (int64 (_M cd), _N cd);
     _size := int64 (int64 (_M cd) * _N cd);
     _nrows := _nrows cd;
     _data := _data cd;
     _rows := (λ r, (int64 r.1, int64 r.2)) <$> _rows cd |}.

(** An error of the validation in [ChunkData.__init__]: an [SPWTypeError]
    or [SPWValueError] that names the chunk list or a chunk in it. *)
Definition names_chunk_list (e : exn) : Prop :=
  match e with
  | SPWTypeError varname _ | SPWValueError _ varname _ =>
      varname = "chunk_list" ∨ varname = "chunk in chunk_list"
  | _ => False
  end.

(** A chunk of [n] rows and one column, over buffer 0. *)
Definition column_chunk (n : nat) : chunk := ArrayLike [n; 1%nat] 0%nat 0%nat 0%nat.

(** The rows of chunk [i], read through the chunk's array object. *)
Definition chunk_rows {T} (σ : store T) (self : ChunkData) (i : nat) : list (list T) :=
  match list_get (_data self) i ≫= as_array with
  | Ok a => contents σ a
  | Err _ => []
  end.

(** Columns [cs .. ce - 1] of every row of a block. *)
Definition select_cols {T} (cs ce : Z) (m : list (list T)) : list (list T) :=
  (λ r, take (Z.to_nat (ce - cs)) (drop (Z.to_nat cs) r)) <$> m.

(** A resolved range passes the validation of [ChunkData.__getitem__]. *)
Definition within (r : Z * Z) (extent : Z) : Prop :=
  0 ≤ r.1 < extent ∧ 0 < r.2 ≤ extent.

#[global] Instance within_dec r extent : Decision (within r extent).
Proof. unfold within. apply _. Defined.

(** What a list iterator yields when [n] elements have been drawn and
    dropped: its element at position [n], or [StopIteration] when it has
    no more than [n] elements. *)
Definition yielded {A} (xs : list A) (n : nat) : res A :=
  match xs !! n with
  | Some x => Ok x
  | None => Err StopIteration
  end.

(** The range a query denotes: a number is the range of length 1 that
    starts there, and an omitted bound of a slice is the start or the end
    of the axis. *)
Definition resolved (q : selector) (extent : Z) : option (Z * Z) :=
  match q with
  | SNum z => Some (z, z + 1)
  | SSlice start stop => Some (default 0 start, default extent stop)
  | SOther => None
  end.

(** ** Further notions for [ChunkData] *)

(** All rows of the matrix: the rows of the chunks, one chunk after the
    other. *)
Definition all_rows {T} (σ : store T) (self : ChunkData) : list (list T) :=
  mjoin (chunk_rows σ self <$> seq 0 (length (_data self))).

(** The rows of an array object are in the store: its buffer exists and
    reaches down to the last row of the window. *)
Definition array_in_store {T} (σ : store T) (a : ndarray) : Prop :=
  match σ !! base a with
  | Some buf => (row0 a + nrow a ≤ length buf)%nat
  | None => False
  end.

Definition chunks_in_store {T} (σ : store T) (self : ChunkData) : Prop :=
  Forall (λ c, match as_array c with
               | Ok a => array_in_store σ a
               | Err _ => True
               end) (_data self).

(** ** [Indexer]: slices and index arrays *)

(** An [islice] object over an iterator: its stop and step, the number of
    elements it has drawn from the iterator and the position of the
    element it passes on next.  The iterator is not part of the object:
    it is shared with the indexer. *)
Record islice_obj := IsliceObj {
  isl_stop : nat;
  isl_step : nat;
  isl_pos : nat * nat
}.

(** [islice(it, start, stop, step)]: no element is drawn on creation. *)
Definition islice (start stop step : nat) : islice_obj :=
  {| isl_stop := stop; isl_step := step; isl_pos := (0%nat, start) |}.

Section Islice.
Context {I A : Type} `{!Iterator I A}.

(** [Indexer.__iter__] hands out the iterator object itself. *)
Definition Indexer_iter (self : Indexer I) : I := _iterobj self.

(** Draw and drop [n] elements; [false] when the iterator ran out. *)
Fixpoint consume (n : nat) (it : I) : bool * I :=
  match n with
  | O => (true, it)
  | S n =>
      match next it with
      | (Some _, it) => consume n it
      | (None, it) => (false, it)
      end
  end.

(** One [next] on the object [islice(it, start, stop, step)], whose state
    is the number [cnt] of elements drawn from [it] so far and the
    position [nxt] of the element to pass on next (at first, 0 and
    [start]).  Elements are drawn and dropped up to position [nxt]; at or
    after [stop] the object is exhausted; else the element drawn next is
    passed on and [nxt] moves on by [step], but not beyond [stop]. *)
Definition islice_next (stop step : nat) (st : nat * nat) (it : I)
  : option (A * (nat * nat)) * I :=
  match consume (st.2 - st.1) it with
  | (false, it) => (None, it)
  | (true, it) =>
      if (stop <=? st.2)%nat then (None, it)
      else match next it with
           | (None, it) => (None, it)
           | (Some x, it) => (Some (x, (S st.2, Nat.min (st.2 + step) stop)), it)
           end
  end.

(** All elements of an [islice] object; no more than [fuel] calls of
    [next]. *)
Fixpoint islice_drain (fuel : nat) (stop step : nat) (st : nat * nat) (it : I)
  : list A * I :=
  match fuel with
  | O => ([], it)
  | S fuel =>
      match islice_next stop step st it with
      | (None, it) => ([], it)
      | (Some (x, st), it) =>
          let r := islice_drain fuel stop step st it in (x :: r.1, r.2)
      end
  end.

(** Reading an [islice] object to its end, as iterating over it does:
    the object passes on no more elements than its stop says, so
    [stop + 1] calls of [next] see its end. *)
Definition islice_read (o : islice_obj) (it : I) : list A * I :=
  islice_drain (S (isl_stop o)) (isl_stop o) (isl_step o) (isl_pos o) it.

(** [Indexer.__getitem__] for a slice.  The [islice] object is handed to
    [np.hstack] as it is, unread.  [np.hstack] is a parameter: it gets
    the object and the iterator behind it, and whether it reads the
    object (and so moves the iterator) or refuses an argument that is no
    sequence is its own business.  [islice] itself refuses a step below 1
    with a [ValueError].  In the error value, [ActualSlice] stands for
    [str(index)], which also prints the step. *)
Definition Indexer_getitem_slice {B} (hstack : islice_obj → I → res B * I)
    (self : Indexer I) (start stop step : option Z) : res B * Indexer I :=
  let index := (default 0 start, default (_iterlen self) stop) in
  match check_limits index "idx" (_iterlen self) with
  | Err e => (Err e, self)
  | Ok _ =>
      if bool_decide (default 1 step < 1) then (Err ValueError, self)
      else
        let r := hstack (islice (Z.to_nat index.1) (Z.to_nat index.2)
                                (Z.to_nat (default 1 step))) (_iterobj self) in
        (r.1, {| _iterobj := r.2; _iterlen := _iterlen self |})
  end.

(** An [np.hstack] that iterates over its argument and stacks the
    elements it finds with [stack]. *)
Definition hstack_reads {B} (stack : list A → res B) (o : islice_obj) (it : I)
  : res B * I :=
  let r := islice_read o it in (stack r.1, r.2).

(** [[next(islice(it, int(ix), int(ix + 1))) for ix in idx]]: the first
    exception ends the list comprehension; [islice] refuses a negative
    start with a [ValueError]. *)
Fixpoint next_islice_each (it : I) (idx : list Z) : res (list A) * I :=
  match idx with
  | [] => (Ok [], it)
  | ix :: idx =>
      if bool_decide (ix < 0) then (Err ValueError, it)
      else match next_islice (Z.to_nat ix) it with
           | (Ok x, it) =>
               let r := next_islice_each it idx in ((x ::.) <$> r.1, r.2)
           | (Err e, it) => (Err e, it)
           end
  end.

(** [Indexer.__getitem__] for a list or array of indices.  The validation
    by [spw_array_parser] of [spykewave.utils], whose source is missing,
    and [np.hstack] are parameters. *)
Definition Indexer_getitem_array {B}
    (spw_array_parser : list Z → string → Z * Z → res unit)
    (hstack : list A → res B) (self : Indexer I) (idx : list Z)
  : res B * Indexer I :=
  match spw_array_parser idx "idx" (0, _iterlen self) with
  | Err e => (Err e, self)
  | Ok _ =>
      let r := next_islice_each (_iterobj self) idx in
      (r.1 ≫= hstack, {| _iterobj := r.2; _iterlen := _iterlen self |})
  end.
End Islice.

(** The positions, counted from a cursor at [c], of the elements that
    calls [self[i]] for the [i] of [idxs] return: every call skips [i]
    elements and takes one. *)
Fixpoint cursor_positions (c : nat) (idxs : list nat) : list nat :=
  match idxs with
  | [] => []
  | i :: idxs => (c + i)%nat :: cursor_positions (c + i + 1) idxs
  end.

(** Every [s]-th element of a list, after [k] elements to skip. *)
Fixpoint strided_from {A} (k s : nat) (l : list A) : list A :=
  match l with
  | [] => []
  | x :: l =>
      match k with
      | O => x :: strided_from (s - 1) s l
      | S k => strided_from k s l
      end
  end.
Definition strided {A} (s : nat) (l : list A) : list A := strided_from 0 s l.

(** ** [BaseData]: segments *)

(** [next(islice(map(f, it), start, start + 1))]: the [map] object applies
    [f] to every element it draws from [it], also to those that [islice]
    drops, and [f] works on a state [S]; an exception of [f] ends the
    call.  An [Err] carries no state: what [f] did before the exception is
    not reachable from the caller's state. *)
Fixpoint next_islice_map {I X A S : Type} `{!Iterator I X}
    (f : X → S → res (A * S)) (start : nat) (it : I) (s : S) : res (A * S) * I :=
  match next it with
  | (None, it) => (Err StopIteration, it)
  | (Some x, it) =>
      match f x s with
      | Err e => (Err e, it)
      | Ok (a, s) =>
          match start with
          | O => (Ok (a, s), it)
          | S start => next_islice_map f start it s
          end
      end
  end.

(** [Indexer.__getitem__] for a number, on an indexer over [map(f, it)]. *)
Definition Indexer_getitem_map {I X A S : Type} `{!Iterator I X}
    (f : X → S → res (A * S)) (self : Indexer I) (idx : Z) (s : S)
  : res (A * S) * Indexer I :=
  match spw_scalar_parser idx "idx" (0, _iterlen self - 1) with
  | Err e => (Err e, self)
  | Ok _ =>
      let r := next_islice_map f (Z.to_nat idx) (_iterobj self) s in
      (r.1, {| _iterobj := r.2; _iterlen := _iterlen self |})
  end.

(** [d.get(k)] on an ordered dictionary. *)
Fixpoint dict_get {V} (k : string) (d : list (string * V)) : option V :=
  match d with
  | [] => None
  | (k', v) :: d => if decide (k = k') then Some v else dict_get k d
  end.

(** The attributes of a [BaseData] object that the segment access and the
    segment label read or write.  [_segmentlabel] is [None] at first;
    [_chunks] and [_trialinfo] exist only after data was loaded.  Of a row
    of [_trialinfo] the first two entries are read, the first and the
    last sample of a trial, taken as integers. *)
Record BaseData := {
  _dimlabels : list (string * list string);
  _segmentlabel : option string;
  _chunks : option ChunkData;
  _trialinfo : option (list (Z * Z))
}.

Definition BaseData_dimord (self : BaseData) : list string := (_dimlabels self).*1.

Definition BaseData_label (self : BaseData) : option (list string) :=
  dict_get "label" (_dimlabels self).

(** A missing attribute is an [AttributeError]. *)
Definition getattr {V} (a : option V) : res V :=
  match a with
  | Some v => Ok v
  | None => Err AttributeError
  end.

(** [BaseData._get_segment]:
    [self._chunks[:, int(self._trialinfo[segno, 0]) : int(self._trialinfo[segno, 1])]]. *)
Definition BaseData_get_segment {T} (self : BaseData) (segno : nat) (σ : store T)
  : res (ndarray * store T) :=
  chunks ← getattr (_chunks self);
  trialinfo ← getattr (_trialinfo self);
  t ← list_get trialinfo segno;
  ChunkData_getitem chunks (SSlice None None) (SSlice (Some t.1) (Some t.2)) σ.

(** [BaseData.segments]: a new indexer on every access, over
    [map(self._get_segment, range(n))] with the [n] rows of [_trialinfo];
    [None] without [_trialinfo].  The indexer is given with the [range]
    iterator; the function of the [map] object is [BaseData_get_segment]. *)
Definition BaseData_segments (self : BaseData) : option (Indexer (list nat)) :=
  trialinfo ← _trialinfo self;
  Some (Indexer_init (seq 0 (length trialinfo)) (Z.of_nat (length trialinfo))).

(** [BaseData.segmentshapes], for a [_trialinfo] array of an integer
    type: [None] without labels.  [tinfo[1] - tinfo[0]] is a difference of
    two scalars of the array's type [dt] and wraps as such; the type is a
    parameter, since the record keeps the entries of the array only. *)
Definition BaseData_segmentshapes (dt : int_dtype) (self : BaseData)
  : res (option (list (Z * Z))) :=
  match BaseData_label self return res (option (list (Z * Z))) with
  | Some (lbl :: lbls) =>
      trialinfo ← getattr (_trialinfo self);
      Ok (Some (fmap (M:=list)
                  (λ t : Z * Z, (Z.of_nat (length (lbl :: lbls)),
                                 dtype_wrap dt (t.2 - t.1)))
                  trialinfo))
  | _ => Ok None
  end.

Module SegmentExamples.
(** The (3,2), (2,2) matrix as five channels of two samples, with three
    trials: the first sample, the second sample, both samples. *)
Definition bd32 : BaseData :=
  {| _dimlabels := [("label", ["ch1"; "ch2"; "ch3"; "ch4"; "ch5"]); ("sample", [])];
     _segmentlabel := None;
     _chunks := Some Examples.cd32;
     _trialinfo := Some [(0, 1); (1, 2); (0, 2)] |}.

(** The same with a second trial that ends behind the last sample. *)
Definition bd32_bad : BaseData :=
  {| _dimlabels := [("label", ["ch1"; "ch2"; "ch3"; "ch4"; "ch5"]); ("sample", [])];
     _segmentlabel := None;
     _chunks := Some Examples.cd32;
     _trialinfo := Some [(0, 1); (1, 3); (0, 2)] |}.
End SegmentExamples.

(** ** [BaseData]: the segment label *)

(** A Python object, as far as [isinstance(obj, str)] tells. *)
Inductive pyobj :=
  | PyStr (s : string)
  | PyOther.

(** The exceptions of the [segmentlabel] setter: its own two, whose
    [actual] is a string here, and whatever [spw_warning] raises. *)
Inductive label_exn (E : Type) :=
  | LabelTypeError (varname expected : string)
  | LabelValueError (lg varname act : string)
  | WarningError (e : E).
Arguments LabelTypeError {E} varname expected.
Arguments LabelValueError {E} lg varname act.
Arguments WarningError {E} e.

Definition options : list string := ["trial"; "other"].

(** ["".join(opt + ", " for opt in options)[:-2]] *)
Definition options_text : string :=
  let s := String.concat "" ((λ opt, opt +:+ ", ") <$> options) in
  String.substring 0 (String.length s - 2) s.

Definition change_msg (current wanted : string) : string :=
  "Cannot change `segmentlabel` property from '" +:+ current +:+ "' to '" +:+ wanted
  +:+ "'. Please create new BaseData object".

Definition set_segmentlabel (self : BaseData) (seglbl : string) : BaseData :=
  {| _dimlabels := _dimlabels self;
     _segmentlabel := Some seglbl;
     _chunks := _chunks self;
     _trialinfo := _trialinfo self |}.

Section SegmentLabel.
(** [spw_warning] of [spykewave.utils], whose source is missing, is a
    parameter: it works on some state [W] of its own and may raise. *)
Context {W E : Type}.
Variable spw_warning : string → string → W → option E * W.

(** The [segmentlabel] setter.  The state is the object, the flag of the
    class [BaseData] that tells whether the properties [trial],
    [trialinfo] and [sampleinfo] have been set on the class (they are set
    together, by [setattr(BaseData, ...)]), and the state of
    [spw_warning].  An exception leaves the state as it is then. *)
Definition BaseData_segmentlabel_setter (seglbl : pyobj) (st : bool * BaseData * W)
  : option (label_exn E) * (bool * BaseData * W) :=
  let '(cls, self, w) := st in
  match seglbl with
  | PyOther => (Some (LabelTypeError "segmentlabel" "str"), st)
  | PyStr seglbl =>
      if decide (seglbl ∈ options) then
        match _segmentlabel self with
        | None =>
            (None, (cls || bool_decide (seglbl = "trial"),
                    set_segmentlabel self seglbl, w))
        | Some current =>
            if decide (current ≠ seglbl) then
              let r := spw_warning (change_msg current seglbl) "SpykeWave core" w in
              (WarningError <$> r.1, (cls, self, r.2))
            else (None, st)
        end
      else (Some (LabelValueError options_text "segmentlabel" seglbl), st)
  end.

(** Assignments [obj.segmentlabel = v] one after the other, for the [v] of
    a list; an exception ends one assignment, not the session. *)
Definition assignments (vals : list pyobj) (st : bool * BaseData * W)
  : bool * BaseData * W :=
  foldl (λ st v, (BaseData_segmentlabel_setter v st).2) st vals.
End SegmentLabel.

(** [obj.trial], the property [property(lambda self: self.segments)] that
    the setter puts on the class; without it the attribute is missing. *)
Definition BaseData_trial (cls : bool) (self : BaseData)
  : res (option (Indexer (list nat))) :=
  if cls then Ok (BaseData_segments self) else Err AttributeError.

(** The values of a list that the setter accepts. *)
Definition valid_labels (vals : list pyobj) : list string :=
  omap (λ v, match v with
             | PyStr s => if decide (s ∈ options) then Some s else None
             | PyOther => None
             end) vals.

(** ** [read_nwb]: the block-wise copy *)

(** The sizes of the blocks in which [read_nwb] copies a data set of [n]
    rows, at most [nSamp] rows at a time:
    [rem = int(n % nSamp)] and
    [nBlocks = [nSamp] * int(n // nSamp) + [rem] * int(rem > 0)].
    [None] is the [ZeroDivisionError] of [n % 0].  Python's [%] and [//]
    round to the floor, as [Z.modulo] and [Z.div] do, and a list times a
    number below 1 is empty. *)
Definition nBlocks (n nSamp : Z) : option (list Z) :=
  if decide (nSamp = 0) then None
  else
    let rem := n `mod` nSamp in
    Some (replicate (Z.to_nat (n `div` nSamp)) nSamp
          ++ replicate (Z.to_nat (Z.b2z (0 <? rem))) rem)%list.

(** The row slices [m * nSamp : m * nSamp + M] of the loop
    [for m, M in enumerate(nBlocks)], read from the source and written to
    the target data set. *)
Definition block_slices (nSamp : Z) (blocks : list Z) : list pyslice :=
  imap (λ m M, Slice (Some (Z.of_nat m * nSamp)) (Some (Z.of_nat m * nSamp + M))) blocks.

(** [data[s, :]] on a data set given by its rows. *)
Definition dataset_rows {T} (data : list (list T)) (s : pyslice) : list (list T) :=
  let r := slice_indices s (length data) in
  take r.2 (drop r.1 data).

(** [np.hstack] on a list of arrays of one dimension: their
    concatenation, and a [ValueError] when there is no array. *)
Definition np_hstack_1d {T} (arrs : list (list T)) : res (list T) :=
  match arrs with
  | [] => Err ValueError
  | _ => Ok (mjoin arrs)
  end.

(** ** Construction *)

Lemma mapM_res_Ok {A B} (f : A → res B) l k :
  mapM f l = Ok k ↔ Forall2 (λ x y, f x = Ok y) l k.
Proof.
  revert k. induction l as [|x l IH]; intros k; simpl.
  - split; [intros [= <-]; constructor | by inversion 1].
  - destruct (f x) as [y|e] eqn:Hx; simpl.
    + destruct (mapM f l) as [k'|e] eqn:Hl; simpl.
      * split.
        -- intros [= <-]. constructor; [done | by apply IH].
        -- inversion 1 as [|? y' ? k'' Hy Hk]; simplify_eq.
           apply IH in Hk. rewrite Hx in Hy. by simplify_eq.
      * split; [done|]. inversion 1 as [|? y' ? k'' Hy Hk]; simplify_eq.
        by apply IH in Hk.
    + split; [done|]. inversion 1; congruence.
Qed.

Lemma cumsum_rows acc l :
  zip (zip_with Z.sub (cumsum_from acc l) l) (cumsum_from acc l) = rows_from acc l.
Proof.
  revert acc. induction l as [|n l IH]; intros acc; simpl; [done|].
  rewrite IH. do 2 f_equal. lia.
Qed.

Lemma cumsum_last acc l :
  l ≠ [] → last (cumsum_from acc l) = Some (acc + sum_Z l).
Proof.
  revert acc. induction l as [|n l IH]; intros acc Hne; [done|].
  destruct l as [|m l].
  - simpl. f_equal. lia.
  - change (last (cumsum_from (acc + n) (m :: l)) = Some (acc + sum_Z (n :: m :: l))).
    rewrite IH by done. f_equal. simpl. lia.
Qed.

Lemma existsb_false_Forall {A} (p : A → bool) l :
  existsb p l = false → Forall (λ x, p x = false) l.
Proof.
  induction l as [|x l IH]; simpl; [constructor|].
  intros [Hx Hl]%orb_false_iff. constructor; auto.
Qed.

Lemma Forall2_replicate_r {A B} (P : A → B → Prop) l y :
  Forall2 P l (replicate (length l) y) → Forall (λ x, P x y) l.
Proof.
  induction l as [|x l IH]; simpl; [constructor|].
  inversion 1; simplify_eq. constructor; auto.
Qed.

Lemma shapes_arrays chunks shapes n0 nrows :
  Forall2 (λ c s, chunk_shape c = Some s) chunks shapes →
  Forall (λ s, negb (length s =? 2)%nat = false) shapes →
  Forall (λ s, list_get s 1 = Ok n0) shapes →
  Forall2 (λ s n, Z.of_nat <$> list_get s 0 = Ok n) shapes nrows →
  ∃ arrs, Forall2 (λ c a, as_array c = Ok a) chunks arrs
        ∧ Forall (λ a, ncol a = n0) arrs
        ∧ nrows = (λ a, Z.of_nat (nrow a)) <$> arrs.
Proof.
  intros Hcs. revert nrows.
  induction Hcs as [|c s chunks shapes Hc _ IH]; intros nrows H2 Hn0 Hnr.
  - inversion Hnr; simplify_eq. by exists [].
  - inversion Hnr as [|? n ? nrows' Hn Hnr']; simplify_eq.
    inversion H2 as [|? ? Hlen H2']; simplify_eq.
    inversion Hn0 as [|? ? Hs1 Hn0']; simplify_eq.
    destruct (IH _ H2' Hn0' Hnr') as (arrs & Ha & Hk & ->).
    destruct c as [shp b r0 c0|]; [|done]. simpl in Hc. simplify_eq.
    destruct s as [|r [|k [|]]]; try done.
    unfold list_get in Hs1, Hn. simpl in Hs1, Hn. simplify_eq.
    exists ({| base := b; row0 := r0; nrow := r; col0 := c0; ncol := n0 |} :: arrs).
    split_and!; [by constructor | by constructor | done].
Qed.

Lemma init_valid chunks self :
  ChunkData_init chunks = Ok self → ∃ arrs, valid self arrs ∧ _data self = chunks.
Proof.
  unfold ChunkData_init.
  destruct (mapM chunk_shape chunks) as [shapes|] eqn:Hs; simpl; [|done].
  destruct (existsb _ shapes) eqn:Hex; [done|].
  destruct (mapM (λ shp, list_get shp 1) shapes) as [cols|] eqn:Hcols; simpl; [|done].
  destruct (list_get shapes 0) as [shape0|] eqn:Hs0; simpl; [|done].
  destruct (list_get shape0 1) as [n0|] eqn:Hn0; simpl; [|done].
  case_bool_decide as Hrep; simpl; [|done].
  destruct (mapM (λ shp, Z.of_nat <$> list_get shp 0) shapes) as [nrows|] eqn:Hnr;
    simpl; [|done].
  destruct (list_last _) as [M|] eqn:HM; simpl; [|done].
  destruct (list_get chunks 0) as [c0|] eqn:Hc0; simpl; [|done].
  destruct (chunk_shape c0) as [shp0|] eqn:Hshp0; simpl; [|done].
  destruct (list_get shp0 1) as [N|] eqn:HN; simpl; [|done].
  intros [= <-].
  apply mapM_Some in Hs. apply mapM_res_Ok in Hcols, Hnr.
  apply existsb_false_Forall in Hex. subst cols.
  apply Forall2_replicate_r in Hcols.
  destruct (shapes_arrays _ _ _ _ Hs Hex Hcols Hnr) as (arrs & Ha & Hk & ->).
  exists arrs. split; [|done].
  assert (arrs ≠ []) as Hne.
  { intros ->. inversion Ha; simplify_eq. }
  assert (shp0 = shape0) as ->.
  { unfold list_get in Hs0, Hc0.
    destruct chunks as [|c chunks]; [done|]. simpl in Hc0. simplify_eq.
    inversion Hs; simplify_eq. simpl in Hs0. congruence. }
  rewrite Hn0 in HN. simplify_eq.
  unfold list_last, np_cumsum in HM.
  rewrite cumsum_last in HM by (by destruct arrs). simplify_eq.
  split; simpl; try done.
  - eapply Forall_impl; [exact Hk|]. simpl. by intros ? ->.
  - unfold np_cumsum. by rewrite cumsum_rows.
Qed.

(** The construction succeeds on every non-empty list of chunks of rank 2
    that agree on the number of columns. *)
Lemma init_succeeds chunks (rows : list nat) (N : nat) :
  chunks ≠ [] →
  Forall2 (λ c r, chunk_shape c = Some [r; N]) chunks rows →
  ∃ self, ChunkData_init chunks = Ok self.
Proof.
  intros Hne HF. set (shapes := (λ r, [r; N]) <$> rows).
  assert (mapM chunk_shape chunks = Some shapes) as Hs.
  { apply mapM_Some. by apply Forall2_fmap_r. }
  assert (existsb (λ shp, negb (length shp =? 2)%nat) shapes = false) as Hex.
  { unfold shapes. clear. by induction rows. }
  assert (mapM (λ shp, list_get shp 1) shapes = Ok (replicate (length shapes) N)) as Hcols.
  { apply mapM_res_Ok. unfold shapes. clear.
    induction rows; csimpl; by constructor. }
  assert (mapM (λ shp, Z.of_nat <$> list_get shp 0) shapes = Ok (Z.of_nat <$> rows)) as Hnr.
  { apply mapM_res_Ok. unfold shapes. clear.
    induction rows; csimpl; by constructor. }
  destruct HF as [|c0 r0 chunks rows Hc0 HF]; [done|].
  unfold ChunkData_init. rewrite Hs. cbn [mbind res_bind]. rewrite Hex, Hcols.
  cbn [mbind res_bind]. rewrite Hnr. subst shapes.
  cbn [fmap list_fmap list_get lookup list_lookup mbind res_bind].
  rewrite bool_decide_true by done. cbn [negb mbind res_bind].
  unfold list_last, np_cumsum.
  rewrite cumsum_last by done. cbn [mbind res_bind]. rewrite Hc0.
  cbn [mbind res_bind fmap res_fmap list_get lookup list_lookup]. by eexists.
Qed.

(** ** The row-range table *)

Lemma sum_Z_nonneg l : Forall (λ n, 0 ≤ n) l → 0 ≤ sum_Z l.
Proof. induction 1; simpl; lia. Qed.

Lemma sum_Z_take_nonneg k l : Forall (λ n, 0 ≤ n) l → 0 ≤ sum_Z (take k l).
Proof. intros Hl. apply sum_Z_nonneg. by apply Forall_take. Qed.

Lemma sum_Z_app l1 l2 : sum_Z (l1 ++ l2) = sum_Z l1 + sum_Z l2.
Proof. induction l1 as [|n l1 IH]; simpl; lia. Qed.

Lemma sum_Z_of_nat (l : list nat) : sum_Z (Z.of_nat <$> l) = Z.of_nat (sum_list l).
Proof. induction l as [|n l IH]; [done|]. csimpl. lia. Qed.

(** ** The construction in 64-bit arithmetic *)

Lemma int64_exact z : - 2 ^ 63 ≤ z < 2 ^ 63 → int64 z = z.
Proof.
  intros Hz. unfold int64, dtype_wrap. cbn [dtype_signed dtype_bits].
  rewrite Z.mod_small; lia.
Qed.

Lemma int64_add_l a b : int64 (int64 a + b) = int64 (a + b).
Proof.
  unfold int64, dtype_wrap. cbn [dtype_signed dtype_bits]. f_equal.
  replace ((a + 2 ^ (64 - 1)) `mod` 2 ^ 64 - 2 ^ (64 - 1) + b + 2 ^ (64 - 1))
    with ((a + 2 ^ (64 - 1)) `mod` 2 ^ 64 + b) by lia.
  replace (a + b + 2 ^ (64 - 1)) with (a + 2 ^ (64 - 1) + b) by lia.
  by rewrite Zplus_mod_idemp_l.
Qed.

Lemma int64_idemp a : int64 (int64 a) = int64 a.
Proof. pose proof (int64_add_l a 0) as H. by rewrite !Z.add_0_r in H. Qed.

Lemma int64_mul_l a b : int64 (int64 a * b) = int64 (a * b).
Proof.
  unfold int64, dtype_wrap. cbn [dtype_signed dtype_bits]. f_equal.
  rewrite <-(Zplus_mod_idemp_l (_ * b)), <-(Zplus_mod_idemp_l (a * b)). f_equal. f_equal.
  rewrite <-(Zmult_mod_idemp_l (_ - _)), <-(Zmult_mod_idemp_l a). f_equal. f_equal.
  rewrite <-Zminus_mod_idemp_l, Z.mod_mod by lia.
  rewrite Zminus_mod_idemp_l. f_equal. lia.
Qed.

Lemma cumsum_int64_wrap acc l :
  cumsum_int64_from (int64 acc) l = int64 <$> cumsum_from acc l.
Proof.
  revert acc. induction l as [|x l IH]; intros acc; [done|].
  cbn [cumsum_int64_from cumsum_from fmap list_fmap].
  rewrite !int64_add_l. f_equal. apply IH.
Qed.

Lemma np_cumsum_int64_wrap l : np_cumsum_int64 l = int64 <$> np_cumsum l.
Proof.
  unfold np_cumsum_int64, np_cumsum. rewrite <-cumsum_int64_wrap. f_equal.
Qed.

Lemma rows_int64_wrap cum nrows :
  zip (zip_with (λ c n, int64 (c - n)) (int64 <$> cum) nrows) (int64 <$> cum)
  = (λ r, (int64 r.1, int64 r.2)) <$> zip (zip_with Z.sub cum nrows) cum.
Proof.
  revert nrows. induction cum as [|c cum IH]; intros [|n nrows]; try done.
  csimpl. rewrite IH. do 2 f_equal.
  replace (int64 c - n) with (int64 c + - n) by lia.
  by rewrite int64_add_l.
Qed.

Lemma list_last_fmap {A B} (f : A → B) (l : list A) :
  list_last (f <$> l) = f <$> list_last l.
Proof.
  unfold list_last. rewrite fmap_last. by destruct (last l).
Qed.

(** The constructor in 64-bit arithmetic fails where the exact one fails,
    with the same error, and else gives the exact instance with its
    numbers wrapped. *)
Lemma init_int64_wrapped chunks :
  ChunkData_init_int64 chunks = wrapped <$> ChunkData_init chunks.
Proof.
  unfold ChunkData_init_int64, ChunkData_init.
  destruct (mapM chunk_shape chunks) as [shapes|]; cbn [mbind res_bind]; [|done].
  destruct (existsb _ shapes); [done|].
  destruct (mapM (λ shp, list_get shp 1) shapes) as [cols|]; cbn [mbind res_bind]; [|done].
  destruct (list_get shapes 0) as [shape0|]; cbn [mbind res_bind]; [|done].
  destruct (list_get shape0 1) as [n0|]; cbn [mbind res_bind]; [|done].
  destruct (negb _); [done|].
  destruct (mapM (λ shp, Z.of_nat <$> list_get shp 0) shapes) as [nrows|];
    cbn [mbind res_bind]; [|done].
  rewrite np_cumsum_int64_wrap, list_last_fmap.
  destruct (list_last (np_cumsum nrows)) as [M|]; cbn [mbind res_bind fmap res_fmap]; [|done].
  destruct (list_get chunks 0) as [c0|]; cbn [mbind res_bind]; [|done].
  destruct (chunk_shape c0) as [shp0|]; cbn [mbind res_bind]; [|done].
  destruct (list_get shp0 1) as [N|]; cbn [mbind res_bind fmap res_fmap]; [|done].
  unfold wrapped. cbn [_M _N _shape _size _nrows _data _rows].
  by rewrite rows_int64_wrap.
Qed.

Lemma init_int64_inv chunks self :
  ChunkData_init_int64 chunks = Ok self →
  ∃ cd, ChunkData_init chunks = Ok cd ∧ self = wrapped cd.
Proof.
  rewrite init_int64_wrapped. destruct (ChunkData_init chunks) as [cd|]; [|done].
  intros [= <-]. by exists cd.
Qed.

Lemma rows_from_int64 acc l :
  0 ≤ acc → Forall (λ n, 0 ≤ n) l → acc + sum_Z l < 2 ^ 63 →
  (λ r : Z * Z, (int64 r.1, int64 r.2)) <$> rows_from acc l = rows_from acc l.
Proof.
  revert acc. induction l as [|n l IH]; intros acc Hacc Hl Hs; [done|].
  inversion Hl; simplify_eq. simpl in Hs. assert (0 ≤ sum_Z l) by by apply sum_Z_nonneg.
  csimpl. rewrite IH by (done || lia). rewrite !int64_exact by lia. done.
Qed.

(** Without overflow the two constructors agree. *)
Lemma init_int64_exact chunks cd :
  ChunkData_init chunks = Ok cd →
  _M cd < 2 ^ 63 → _M cd * _N cd < 2 ^ 63 →
  ChunkData_init_int64 chunks = Ok cd.
Proof.
  intros Hinit HM Hsize. rewrite init_int64_wrapped, Hinit. cbn [fmap res_fmap]. f_equal.
  destruct (init_valid _ _ Hinit) as (arrs & [Hne Harr Hncol Hnrows Hrows HMs Hshape Hsz] & _).
  assert (Forall (λ n, 0 ≤ n) (_nrows cd)) as Hnn.
  { rewrite Hnrows. apply Forall_fmap, Forall_true. intros a. simpl. lia. }
  assert (0 ≤ _N cd) as HN.
  { destruct arrs as [|a arrs]; [done|]. inversion Hncol; simplify_eq. lia. }
  assert (0 ≤ _M cd) as HM0 by (rewrite HMs; by apply sum_Z_nonneg).
  destruct cd as [M N shp sz nrows data rows]. simpl in *. subst. unfold wrapped. simpl.
  rewrite rows_from_int64 by (done || lia). rewrite !int64_exact by nia. done.
Qed.

(** So what is proved of an instance of the exact constructor holds of
    the instance that NumPy's arithmetic gives, as long as the number of
    rows and the size are below [2 ^ 63]: it is the same instance. *)
Lemma init_int64_transfer chunks self :
  ChunkData_init_int64 chunks = Ok self →
  sum_Z (_nrows self) < 2 ^ 63 → sum_Z (_nrows self) * _N self < 2 ^ 63 →
  ChunkData_init chunks = Ok self.
Proof.
  intros Hinit Hsum Hsize. destruct (init_int64_inv _ _ Hinit) as (cd & Hcd & ->).
  destruct (init_valid _ _ Hcd) as (arrs & Hv & _).
  unfold wrapped in Hsum, Hsize. cbn [_nrows _N] in Hsum, Hsize.
  rewrite <-(v_M _ _ Hv) in Hsum, Hsize.
  pose proof (init_int64_exact _ _ Hcd Hsum Hsize) as Hexact.
  rewrite Hinit in Hexact. injection Hexact as ->. exact Hcd.
Qed.

(** The errors of the construction on a non-empty list are those of the
    validation. *)
Lemma init_error_validation chunks e :
  chunks ≠ [] → ChunkData_init chunks = Err e → names_chunk_list e.
Proof.
  intros Hne. unfold ChunkData_init.
  destruct (mapM chunk_shape chunks) as [shapes|] eqn:Hs; cbn [mbind res_bind];
    [|intros [= <-]; simpl; by right].
  destruct (existsb _ shapes) eqn:Hex; [intros [= <-]; simpl; by right|].
  apply mapM_Some in Hs. apply existsb_false_Forall in Hex.
  assert (∃ rows cols : list nat, shapes = zip_with (λ r k, [r; k]) rows cols
                                  ∧ length rows = length cols) as (rows & cols & -> & Hlen).
  { clear -Hex. induction Hex as [|s shapes Hs _ (rows & cols & -> & Hlen)].
    - by exists [], [].
    - destruct s as [|r [|k [|]]]; try done. exists (r :: rows), (k :: cols).
      split; [done | simpl; lia]. }
  assert (mapM (λ shp, list_get shp 1) (zip_with (λ r k : nat, [r; k]) rows cols) = Ok cols)
    as ->.
  { apply mapM_res_Ok. clear -Hlen. revert cols Hlen.
    induction rows as [|r rows IH]; intros [|k cols] Hlen; simplify_eq/=; constructor; auto. }
  assert (mapM (λ shp, Z.of_nat <$> list_get shp 0) (zip_with (λ r k : nat, [r; k]) rows cols)
          = Ok (Z.of_nat <$> rows)) as Hnr.
  { apply mapM_res_Ok. clear -Hlen. revert cols Hlen.
    induction rows as [|r rows IH]; intros [|k cols] Hlen; simplify_eq/=; constructor; auto. }
  cbn [mbind res_bind].
  destruct chunks as [|c0 chunks]; [done|].
  inversion Hs as [|? s0 ? shapes' Hc0 Hs' Heq1 Heq2]; simplify_eq.
  destruct rows as [|r0 rows], cols as [|k0 cols]; simplify_eq/=.
  destruct (negb _); [intros [= <-]; simpl; by left|].
  rewrite Hnr. cbn [mbind res_bind].
  unfold list_last, np_cumsum. rewrite cumsum_last by done. cbn [mbind res_bind].
  by rewrite Hc0.
Qed.

Lemma rows_from_lookup acc l k :
  rows_from acc l !! k
  = (λ n, (acc + sum_Z (take k l), acc + sum_Z (take k l) + n)) <$> l !! k.
Proof.
  revert acc k. induction l as [|n l IH]; intros acc [|k]; simpl; try done.
  - do 3 f_equal; lia.
  - rewrite IH. destruct (l !! k); simpl; [|done]. do 2 f_equal; lia.
Qed.

Lemma rows_from_length acc l : length (rows_from acc l) = length l.
Proof. revert acc. induction l; intros; simpl; auto. Qed.

Lemma np_where_none i x acc l :
  Forall (λ n, 0 ≤ n) l → x < acc →
  np_where_from i (in_range x <$> rows_from acc l) = [].
Proof.
  intros Hl. revert i acc. induction Hl as [|n l Hn _ IH]; intros i acc Hx; [done|].
  simpl. unfold in_range at 1. simpl.
  destruct (Z.leb_spec acc x); [lia|]. simpl. apply IH. lia.
Qed.

Lemma np_where_unique i x acc l k r :
  Forall (λ n, 0 ≤ n) l →
  rows_from acc l !! k = Some r → in_range x r = true →
  np_where_from i (in_range x <$> rows_from acc l) = [(i + k)%nat].
Proof.
  intros Hl. revert i acc k.
  induction Hl as [|n l Hn Hl IH]; intros i acc [|k] Hk Hx; simpl in *; try done.
  - simplify_eq. rewrite Hx. f_equal; [lia|].
    apply np_where_none; [done|].
    unfold in_range in Hx. simpl in Hx. lia.
  - assert (in_range x (acc, acc + n) = false) as ->.
    { rewrite rows_from_lookup in Hk.
      destruct (l !! k) as [m|]; simplify_eq/=.
      pose proof (sum_Z_take_nonneg k l Hl).
      unfold in_range in *. simpl in *. lia. }
    rewrite (IH (S i) _ k) by done. f_equal. lia.
Qed.

Lemma rows_from_cover acc l x :
  Forall (λ n, 0 ≤ n) l → acc ≤ x < acc + sum_Z l →
  ∃ k s e, rows_from acc l !! k = Some (s, e) ∧ s ≤ x < e.
Proof.
  intros Hl. revert acc. induction Hl as [|n l Hn Hl IH]; intros acc Hx; simpl in *.
  - lia.
  - destruct (decide (x < acc + n)) as [Hlt|Hge].
    + exists 0%nat, acc, (acc + n). split; [done | lia].
    + destruct (IH (acc + n)) as (k & s & e & Hk & Hse); [lia|].
      by exists (S k), s, e.
Qed.

(** ** Valid instances *)

Section Valid.
Context (self : ChunkData) (arrs : list ndarray) (Hv : valid self arrs).

Lemma valid_nrows_nonneg : Forall (λ n, 0 ≤ n) (_nrows self).
Proof.
  rewrite (v_nrows _ _ Hv). apply Forall_fmap, Forall_forall. intros; simpl; lia.
Qed.

Lemma valid_find_chunk k s e x :
  _rows self !! k = Some (s, e) → s ≤ x < e → find_chunk self x = Ok k.
Proof.
  intros Hk Hx. unfold find_chunk, np_where.
  rewrite (v_rows _ _ Hv) in Hk |- *.
  rewrite (np_where_unique 0 x 0 _ k (s, e)); [done | | done |].
  - apply valid_nrows_nonneg.
  - unfold in_range. simpl. lia.
Qed.

Lemma valid_cover x :
  0 ≤ x < _M self → ∃ k s e, _rows self !! k = Some (s, e) ∧ s ≤ x < e.
Proof.
  intros Hx. rewrite (v_rows _ _ Hv).
  apply rows_from_cover; [apply valid_nrows_nonneg|].
  by rewrite <-(v_M _ _ Hv).
Qed.

(** Chunk [k] as an array, its row range and its number of rows. *)
Lemma valid_lookup k s e :
  _rows self !! k = Some (s, e) →
  ∃ a, arrs !! k = Some a
     ∧ (list_get (_data self) k ≫= as_array) = Ok a
     ∧ list_get (_rows self) k = Ok (s, e)
     ∧ s = sum_Z (take k (_nrows self))
     ∧ e = s + Z.of_nat (nrow a)
     ∧ Z.of_nat (ncol a) = _N self.
Proof.
  intros Hk. pose proof Hk as Hk'.
  rewrite (v_rows _ _ Hv), rows_from_lookup, (v_nrows _ _ Hv) in Hk'.
  rewrite list_lookup_fmap in Hk'.
  destruct (arrs !! k) as [a|] eqn:Ha; simplify_eq/=.
  exists a. split; [done|].
  destruct (Forall2_lookup_r _ _ _ _ _ (v_arrays _ _ Hv) Ha) as (c & Hc & Hca).
  unfold list_get. rewrite Hc, Hk. simpl.
  split_and!; try done.
  - by rewrite (v_nrows _ _ Hv).
  - eapply (Forall_lookup_1 _ _ _ _ (v_ncol _ _ Hv) Ha).
Qed.
End Valid.

(** ** Slices, views and stacked arrays *)

Lemma slice_indices_from a len :
  0 ≤ a ≤ Z.of_nat len →
  slice_indices (Slice (Some a) None) len = (Z.to_nat a, (len - Z.to_nat a)%nat).
Proof.
  intros Ha. unfold slice_indices, adjust. simpl.
  destruct (Z.ltb_spec a 0); [lia|]. f_equal; lia.
Qed.

Lemma slice_indices_upto b len :
  0 ≤ b ≤ Z.of_nat len →
  slice_indices (Slice None (Some b)) len = (0%nat, Z.to_nat b).
Proof.
  intros Hb. unfold slice_indices, adjust. simpl.
  destruct (Z.ltb_spec b 0); [lia|]. f_equal; lia.
Qed.

Lemma slice_indices_all len : slice_indices sl_all len = (0%nat, len).
Proof. unfold slice_indices, adjust. simpl. f_equal; lia. Qed.

Lemma slice_indices_range a b len :
  0 ≤ a ≤ Z.of_nat len → 0 ≤ b ≤ Z.of_nat len →
  slice_indices (Slice (Some a) (Some b)) len = (Z.to_nat a, Z.to_nat (b - a)).
Proof.
  intros Ha Hb. unfold slice_indices, adjust. simpl.
  destruct (Z.ltb_spec a 0), (Z.ltb_spec b 0); try lia. f_equal; lia.
Qed.

Lemma slice_indices_fits s len :
  ((slice_indices s len).1 + (slice_indices s len).2 ≤ len)%nat.
Proof.
  unfold slice_indices, adjust. destruct s as [[a|] [b|]]; simpl;
    repeat case_match; lia.
Qed.

Lemma join_cons {A} (x : list A) (l : list (list A)) : mjoin (x :: l) = (x ++ mjoin l)%list.
Proof. done. Qed.

Lemma join_singleton {A} (x : list A) : mjoin [x] = x.
Proof. apply app_nil_r. Qed.

Lemma sum_list_cons x l : sum_list (x :: l) = (x + sum_list l)%nat.
Proof. done. Qed.

Lemma sum_list_app l k : sum_list (l ++ k) = (sum_list l + sum_list k)%nat.
Proof. apply sum_list_with_app. Qed.

Lemma take_drop_take {A} (l : list A) n m k :
  (m + n ≤ k)%nat → take n (drop m (take k l)) = take n (drop m l).
Proof.
  intros Hk. rewrite !take_drop_commute, take_take. do 2 f_equal. lia.
Qed.

Section Contents.
Context {T : Type}.
Implicit Types (σ : store T) (a : ndarray).

Lemma contents_length σ a : (length (contents σ a) ≤ nrow a)%nat.
Proof.
  unfold contents. destruct (σ !! base a); simpl; [|lia].
  rewrite length_fmap, length_take. lia.
Qed.

Lemma contents_width σ a :
  Forall (λ r, length r ≤ ncol a)%nat (contents σ a).
Proof.
  unfold contents. destruct (σ !! base a); [|constructor].
  apply Forall_fmap, Forall_forall. intros r _. simpl.
  rewrite length_take. lia.
Qed.

(** Reading through a view is reading the selected part of what the
    sliced array shows, in any store. *)
Lemma contents_getitem2 σ a rs cs :
  contents σ (getitem2 a rs cs)
  = (λ r, take (slice_indices cs (ncol a)).2 (drop (slice_indices cs (ncol a)).1 r))
    <$> take (slice_indices rs (nrow a)).2
             (drop (slice_indices rs (nrow a)).1 (contents σ a)).
Proof.
  pose proof (slice_indices_fits rs (nrow a)) as Hr.
  pose proof (slice_indices_fits cs (ncol a)) as Hc.
  unfold getitem2, contents. simpl.
  destruct (σ !! base a) as [buf|]; [|by rewrite drop_nil, take_nil].
  rewrite <-fmap_drop, <-fmap_take, <-list_fmap_compose.
  rewrite take_drop_take, drop_drop by done.
  apply list_fmap_ext. intros _ r _. simpl.
  by rewrite take_drop_take, drop_drop.
Qed.

Lemma contents_nil σ a : nrow a = 0%nat → contents σ a = [].
Proof.
  intros H0. pose proof (contents_length σ a).
  destruct (contents σ a); [done | simpl in *; lia].
Qed.

Lemma join_contents_length σ arrs :
  (length (mjoin (contents σ <$> arrs)) ≤ sum_list (nrow <$> arrs))%nat.
Proof.
  induction arrs as [|a arrs IH]; csimpl; [lia|].
  rewrite length_app. pose proof (contents_length σ a). lia.
Qed.

Lemma join_contents_width σ arrs c :
  Forall (λ a, ncol a = c) arrs →
  Forall (λ r, length r ≤ c)%nat (mjoin (contents σ <$> arrs)).
Proof.
  induction 1 as [|a arrs Ha _ IH]; csimpl; [constructor|].
  apply Forall_app. split; [|done]. subst c. apply contents_width.
Qed.

(** [np.vstack] of arrays with the same number of columns allocates the
    buffer after the last one and shows the stacked rows. *)
Lemma np_vstack_Ok a0 arrs σ :
  Forall (λ a, ncol a = ncol a0) arrs →
  let r := {| base := length σ; row0 := 0;
              nrow := sum_list (nrow <$> a0 :: arrs);
              col0 := 0; ncol := ncol a0 |} in
  let σ' := (σ ++ [mjoin (contents σ <$> a0 :: arrs)])%list in
  np_vstack (a0 :: arrs) σ = Ok (r, σ')
  ∧ contents σ' r = mjoin (contents σ <$> a0 :: arrs).
Proof.
  intros Hc r σ'. split.
  - unfold np_vstack.
    assert (forallb (λ a, ncol a =? ncol a0)%nat (a0 :: arrs) = true) as ->; [|done].
    apply Is_true_eq_true, forallb_True, Forall_cons.
    split; [by rewrite Nat.eqb_refl|].
    eapply Forall_impl; [exact Hc|]. simpl. intros a ->. by rewrite Nat.eqb_refl.
  - pose proof (join_contents_length σ (a0 :: arrs)) as Hlen.
    assert (Forall (λ r, length r ≤ ncol a0)%nat (mjoin (contents σ <$> a0 :: arrs)))
      as Hwid by (apply join_contents_width; by constructor).
    unfold r, σ'. clear r σ'. revert Hlen Hwid.
    generalize (mjoin (contents σ <$> a0 :: arrs)).
    generalize (sum_list (nrow <$> a0 :: arrs)).
    intros n buf Hlen Hwid. unfold contents. simpl.
    rewrite (list_lookup_middle σ [] buf (length σ) eq_refl).
    rewrite take_ge by done.
    induction Hwid as [|row buf Hrow _ IH]; csimpl; [done|].
    rewrite take_ge by done. f_equal. simpl in Hlen. apply IH. lia.
Qed.
End Contents.

(** ** The two branches of [__getitem__] *)

Lemma check_limits_within r varname extent :
  within r extent → check_limits r varname extent = Ok ().
Proof.
  intros [[] []]. unfold check_limits.
  destruct (Z.leb_spec 0 r.1), (Z.ltb_spec r.1 extent),
    (Z.ltb_spec 0 r.2), (Z.leb_spec r.2 extent); simpl; try lia. done.
Qed.

Lemma check_limits_outside r varname extent :
  ¬ within r extent →
  check_limits r varname extent
  = Err (SPWValueError (LegalBetween 0 extent) varname (ActualSlice r.1 r.2)).
Proof.
  intros Hr. unfold check_limits, within in *.
  destruct (Z.leb_spec 0 r.1), (Z.ltb_spec r.1 extent),
    (Z.ltb_spec 0 r.2), (Z.leb_spec r.2 extent); simpl; try done; lia.
Qed.

Lemma getitem2_compose a rs cs :
  getitem2 (getitem2 a rs sl_all) sl_all cs = getitem2 a rs cs.
Proof.
  unfold getitem2. cbn [nrow ncol base row0 col0].
  rewrite !slice_indices_all. cbn [fst snd]. f_equal; lia.
Qed.

Lemma nrow_getitem2 a rs cs :
  nrow (getitem2 a rs cs) = (slice_indices rs (nrow a)).2.
Proof. done. Qed.

Lemma select_cols_all {T} (m : list (list T)) N :
  Forall (λ r, Z.of_nat (length r) ≤ N) m → select_cols 0 N m = m.
Proof.
  unfold select_cols. induction 1 as [|r m Hr _ IH]; csimpl; [done|].
  rewrite IH. f_equal. apply take_ge. lia.
Qed.

Section Branches.
Context {T : Type} (self : ChunkData) (arrs : list ndarray) (Hv : valid self arrs).
Implicit Types (σ : store T).

Lemma valid_chunk_rows σ k a : arrs !! k = Some a → chunk_rows σ self k = contents σ a.
Proof.
  intros Ha. unfold chunk_rows, list_get.
  destruct (Forall2_lookup_r _ _ _ _ _ (v_arrays _ _ Hv) Ha) as (c & -> & Hca).
  simpl. by rewrite Hca.
Qed.

Lemma valid_rows_is_Some k :
  (k < length arrs)%nat → ∃ s e, _rows self !! k = Some (s, e).
Proof.
  intros Hk. destruct (_rows self !! k) as [[s e]|] eqn:Hr; [by eauto|].
  apply lookup_ge_None in Hr.
  rewrite (v_rows _ _ Hv), rows_from_length, (v_nrows _ _ Hv), length_fmap in Hr. lia.
Qed.

(** A block of a chunk with the column range of a valid query. *)
Lemma contents_block σ a rs cs ce :
  Z.of_nat (ncol a) = _N self → within (cs, ce) (_N self) →
  contents σ (getitem2 a rs (Slice (Some cs) (Some ce)))
  = select_cols cs ce (take (slice_indices rs (nrow a)).2
                            (drop (slice_indices rs (nrow a)).1 (contents σ a)))
  ∧ ncol (getitem2 a rs (Slice (Some cs) (Some ce))) = Z.to_nat (ce - cs).
Proof.
  intros Ha [[] []]. cbn [fst snd] in *.
  rewrite contents_getitem2. unfold getitem2. cbn [ncol].
  by rewrite slice_indices_range by lia.
Qed.

(** The chunks in [range(j, j + n)], each with all its rows. *)
Lemma mid_chunks σ cs ce j n :
  within (cs, ce) (_N self) → (j + n ≤ length arrs)%nat →
  ∃ mids,
    mapM (λ i, c ← list_get (_data self) i ≫= as_array;
               Ok (getitem2 c sl_all (Slice (Some cs) (Some ce)))) (seq j n)
    = Ok mids
    ∧ Forall (λ m, ncol m = Z.to_nat (ce - cs)) mids
    ∧ contents σ <$> mids
      = (λ i, select_cols cs ce (chunk_rows σ self i)) <$> seq j n
    ∧ Z.of_nat (sum_list (nrow <$> mids)) = sum_Z (take n (drop j (_nrows self))).
Proof.
  intros Hc. revert j. induction n as [|n IH]; intros j Hj.
  - exists []. by rewrite take_0.
  - destruct (IH (S j)) as (mids & Hm & Hcol & Hcont & Hsum); [lia|].
    destruct (valid_rows_is_Some j) as (s & e & Hr); [lia|].
    destruct (valid_lookup _ _ Hv _ _ _ Hr) as (a & Ha & Hda & _ & _ & _ & Hn).
    destruct (contents_block σ a sl_all cs ce Hn Hc) as [Hb Hbc].
    exists (getitem2 a sl_all (Slice (Some cs) (Some ce)) :: mids).
    split_and!.
    + simpl. rewrite Hda. simpl. by rewrite Hm.
    + by constructor.
    + csimpl. rewrite Hcont, Hb, slice_indices_all. simpl.
      rewrite (valid_chunk_rows _ _ _ Ha).
      by rewrite take_ge by apply contents_length.
    + rewrite fmap_cons, nrow_getitem2, slice_indices_all. simpl.
      assert (_nrows self !! j = Some (Z.of_nat (nrow a))) as Hnj.
      { by rewrite (v_nrows _ _ Hv), list_lookup_fmap, Ha. }
      rewrite (drop_S _ _ _ Hnj). simpl. lia.
Qed.
End Branches.

Section Query.
Context {T : Type} (self : ChunkData) (arrs : list ndarray) (Hv : valid self arrs).
Implicit Types (σ : store T).

(** The stacking branch, for a start row in chunk [i1] and a last row in
    chunk [i2]. *)
Lemma stack_chunks_spec σ start stop cs ce i1 i2 s1 e1 s2 e2 :
  within (cs, ce) (_N self) →
  _rows self !! i1 = Some (s1, e1) → s1 ≤ start < e1 →
  _rows self !! i2 = Some (s2, e2) → s2 ≤ stop - 1 < e2 →
  ∃ r buf,
    stack_chunks self (start, stop) (Slice (Some cs) (Some ce)) i1 i2 σ
    = Ok (r, (σ ++ [buf])%list)
    ∧ base r = length σ
    ∧ contents (σ ++ [buf])%list r = buf
    ∧ buf = (select_cols cs ce (drop (Z.to_nat (start - s1)) (chunk_rows σ self i1))
             ++ mjoin ((λ i, select_cols cs ce (chunk_rows σ self i))
                       <$> seq (S i1) (i2 - S i1))
             ++ select_cols cs ce (take (Z.to_nat (stop - s2)) (chunk_rows σ self i2)))%list
    ∧ shape r = ((e1 - start)
                 + sum_Z (take (i2 - S i1) (drop (S i1) (_nrows self)))
                 + (stop - s2),
                 Z.max 0 (ce - cs)).
Proof.
  intros Hc Hi1 H1 Hi2 H2.
  destruct (valid_lookup _ _ Hv _ _ _ Hi1) as (a1 & Ha1 & Hda1 & Hr1 & Hs1 & He1 & Hn1).
  destruct (valid_lookup _ _ Hv _ _ _ Hi2) as (a2 & Ha2 & Hda2 & Hr2 & Hs2 & He2 & Hn2).
  pose proof (lookup_lt_Some _ _ _ Ha1). pose proof (lookup_lt_Some _ _ _ Ha2).
  destruct (mid_chunks self arrs Hv σ cs ce (S i1) (i2 - S i1) Hc)
    as (mids & Hm & Hmc & Hmcont & Hmsum); [lia|].
  set (col := Slice (Some cs) (Some ce)) in *.
  set (head := getitem2 a1 (Slice (Some (start - s1)) None) col).
  set (tail := getitem2 a2 (Slice None (Some (stop - s2))) col).
  destruct (contents_block self σ a1 (Slice (Some (start - s1)) None) cs ce Hn1 Hc)
    as [Hhead Hheadc].
  destruct (contents_block self σ a2 (Slice None (Some (stop - s2))) cs ce Hn2 Hc)
    as [Htail Htailc].
  rewrite slice_indices_from in Hhead by lia.
  rewrite slice_indices_upto in Htail by lia.
  cbn [fst snd] in Hhead, Htail. fold col head tail in Hhead, Htail, Hheadc, Htailc.
  destruct (np_vstack_Ok head (mids ++ [tail]) σ) as [Hvs Hcont].
  { apply Forall_app. split.
    - eapply Forall_impl; [exact Hmc|]. cbv beta. intros m ->. by rewrite Hheadc.
    - repeat constructor. by rewrite Hheadc, Htailc. }
  eexists _, _. split_and!.
  - unfold stack_chunks. rewrite Hda1. cbn [mbind res_bind]. rewrite Hr1.
    cbn [mbind res_bind fst snd]. rewrite Hm. cbn [mbind res_bind].
    rewrite Hda2. cbn [mbind res_bind]. rewrite Hr2. cbn [mbind res_bind fst snd].
    exact Hvs.
  - done.
  - exact Hcont.
  - rewrite fmap_cons, fmap_app, Hmcont, Hhead.
    change (contents σ <$> [tail]) with [contents σ tail].
    rewrite Htail, join_cons, join_app, join_singleton.
    rewrite (valid_chunk_rows self arrs Hv σ _ _ Ha1).
    rewrite (valid_chunk_rows self arrs Hv σ _ _ Ha2).
    rewrite drop_0.
    f_equal. f_equal. apply take_ge. rewrite length_drop.
    pose proof (contents_length σ a1). lia.
  - unfold shape. cbn [nrow ncol]. rewrite Hheadc. f_equal; [|lia].
    rewrite fmap_cons, fmap_app, sum_list_cons, sum_list_app.
    change (sum_list (nrow <$> [tail])) with (nrow tail + 0)%nat. unfold head, tail.
    rewrite !nrow_getitem2, slice_indices_from, slice_indices_upto by lia.
    cbn [fst snd]. lia.
Qed.

(** The view branch, for a start row and a last row in chunk [i]. *)
Lemma view_chunk_spec σ start stop cs ce i s e :
  within (cs, ce) (_N self) →
  _rows self !! i = Some (s, e) → s ≤ start < e → s ≤ stop - 1 < e →
  ∃ a v,
    (list_get (_data self) i ≫= as_array) = Ok a
    ∧ view_chunk self (start, stop) (Slice (Some cs) (Some ce)) i σ = Ok (v, σ)
    ∧ base v = base a
    ∧ (∀ σ', contents σ' v
             = select_cols cs ce
                 (take (Z.to_nat (stop - start))
                       (drop (Z.to_nat (start - s)) (chunk_rows σ' self i))))
    ∧ shape v = (Z.max 0 (stop - start), Z.max 0 (ce - cs)).
Proof.
  intros Hc Hi H1 H2.
  destruct (valid_lookup _ _ Hv _ _ _ Hi) as (a & Ha & Hda & Hr & Hs & He & Hn).
  set (row := Slice (Some (start - s)) (Some (stop - s))).
  assert (slice_indices row (nrow a)
          = (Z.to_nat (start - s), Z.to_nat (stop - start))) as Hrow.
  { unfold row. rewrite slice_indices_range by lia. f_equal. f_equal. lia. }
  exists a, (getitem2 a row (Slice (Some cs) (Some ce))). split_and!.
  - done.
  - unfold view_chunk. rewrite Hr. cbn [mbind res_bind fst snd].
    rewrite Hda. cbn [mbind res_bind]. by rewrite getitem2_compose.
  - done.
  - intros σ'.
    destruct (contents_block self σ' a row cs ce Hn Hc) as [-> _].
    by rewrite Hrow, (valid_chunk_rows self arrs Hv σ' _ _ Ha).
  - destruct (contents_block self σ a row cs ce Hn Hc) as [_ Hcol].
    unfold shape. rewrite Hcol, nrow_getitem2, Hrow. cbn [snd]. f_equal; lia.
Qed.

(** A query that passes the validation goes to the branch chosen by the
    chunks of its first and last row. *)
Lemma getitem_located σ qrow qcol row col i1 i2 s1 e1 s2 e2 :
  as_slice qrow "row" (_M self) = Ok row →
  as_slice qcol "col" (_N self) = Ok col →
  within row (_M self) → within col (_N self) →
  _rows self !! i1 = Some (s1, e1) → s1 ≤ row.1 < e1 →
  _rows self !! i2 = Some (s2, e2) → s2 ≤ row.2 - 1 < e2 →
  ChunkData_getitem self qrow qcol σ
  = if decide (i1 ≠ i2)
    then stack_chunks self row (Slice (Some col.1) (Some col.2)) i1 i2 σ
    else view_chunk self row (Slice (Some col.1) (Some col.2)) i1 σ.
Proof.
  intros Hqr Hqc Hr Hc Hi1 H1 Hi2 H2. unfold ChunkData_getitem.
  rewrite Hqr, Hqc. cbn [mbind res_bind].
  rewrite !check_limits_within by done. cbn [mbind res_bind].
  rewrite (valid_find_chunk _ _ Hv _ _ _ _ Hi1 H1). cbn [mbind res_bind].
  by rewrite (valid_find_chunk _ _ Hv _ _ _ _ Hi2 H2).
Qed.
End Query.

(** An assignment through an array object, at a cell its buffer has, is
    read back through every view of the array that contains the cell. *)
Lemma view_sees_setitem {T} (σ : store T) a rs cs k l x buf row :
  (k < (slice_indices rs (nrow a)).2)%nat →
  (l < (slice_indices cs (ncol a)).2)%nat →
  σ !! base a = Some buf →
  buf !! (row0 a + ((slice_indices rs (nrow a)).1 + k))%nat = Some row →
  (col0 a + ((slice_indices cs (ncol a)).1 + l) < length row)%nat →
  contents (setitem a ((slice_indices rs (nrow a)).1 + k)
                      ((slice_indices cs (ncol a)).1 + l) x σ)
           (getitem2 a rs cs) !! k ≫= (.!! l)
  = Some x.
Proof.
  pose proof (slice_indices_fits rs (nrow a)) as Hr.
  pose proof (slice_indices_fits cs (ncol a)) as Hc.
  unfold getitem2, contents. cbn [base row0 nrow col0 ncol].
  destruct (slice_indices rs (nrow a)) as [r0 rn].
  destruct (slice_indices cs (ncol a)) as [c0 cn].
  cbn [fst snd] in *. intros Hk Hl Hbuf Hrow Hlen.
  unfold setitem. rewrite decide_True by lia.
  rewrite list_lookup_alter_eq, Hbuf. cbn [fmap option_fmap option_map].
  rewrite list_lookup_fmap, lookup_take_lt, lookup_drop by done.
  replace (row0 a + r0 + k)%nat with (row0 a + (r0 + k))%nat by lia.
  rewrite list_lookup_alter_eq, Hrow.
  cbn [fmap option_fmap option_map mbind option_bind].
  rewrite lookup_take_lt, lookup_drop by done.
  replace (col0 a + c0 + l)%nat with (col0 a + (c0 + l))%nat by lia.
  by apply list_lookup_insert_eq.
Qed.

(** ** Properties of [ChunkData] *)

Lemma as_array_shape c a : as_array c = Ok a → chunk_shape c = Some [nrow a; ncol a].
Proof.
  destruct c as [[|r [|k [|]]] b r0 c0|]; simpl; try done. by intros [= <-].
Qed.

(** C4: constructing a [ChunkData] from an empty chunk list fails and no
    instance is created, but not with an error for the empty input: the
    validation lets the empty list pass, and the evaluation of
    [shapes[0]] raises a bare [IndexError].  On a non-empty list, every
    error of the construction is an error of the validation that names
    the chunk list. *)
Theorem init_empty_fails :
  ChunkData_init_int64 [] = Err IndexError
  ∧ (∀ self, ChunkData_init_int64 [] ≠ Ok self)
  ∧ ¬ names_chunk_list IndexError
  ∧ (∀ chunks e,
       chunks ≠ [] → ChunkData_init_int64 chunks = Err e → names_chunk_list e).
Proof.
  split_and!; [reflexivity | intros self; discriminate | by intros [] |].
  intros chunks e Hne. rewrite init_int64_wrapped.
  destruct (ChunkData_init chunks) as [cd|e'] eqn:Hinit; [done|].
  intros [= <-]. by apply init_error_validation with chunks.
Qed.

Lemma init_int64_shape_size chunks self :
  ChunkData_init_int64 chunks = Ok self →
  ∃ (N : nat) (rows : list nat),
    Forall2 (λ c r, chunk_shape c = Some [r; N]) chunks rows
    ∧ _nrows self = Z.of_nat <$> rows
    ∧ _rows self = (λ r, (int64 r.1, int64 r.2)) <$> rows_from 0 (Z.of_nat <$> rows)
    ∧ _M self = int64 (Z.of_nat (sum_list rows))
    ∧ _N self = Z.of_nat N
    ∧ _shape self = (_M self, _N self)
    ∧ _size self = int64 (_M self * _N self).
Proof.
  intros Hinit. destruct (init_int64_inv _ _ Hinit) as (cd & Hcd & ->).
  destruct (init_valid _ _ Hcd) as (arrs & Hv & Hdata).
  destruct Hv as [Hne Harr Hncol Hnrows Hrows HM Hshape Hsize].
  destruct arrs as [|a0 arrs]; [done|].
  exists (ncol a0), (nrow <$> a0 :: arrs).
  assert (_N cd = Z.of_nat (ncol a0)) as HN by (by inversion Hncol).
  assert (_nrows cd = Z.of_nat <$> (nrow <$> a0 :: arrs)) as Hnr.
  { by rewrite Hnrows, <-list_fmap_compose. }
  unfold wrapped. cbn [_M _N _shape _size _nrows _rows].
  rewrite Hrows, HM, Hnr, sum_Z_of_nat, HN. split_and!; try done.
  rewrite <-Hdata. apply Forall2_fmap_r.
  apply Forall2_same_length_lookup. split; [by eapply Forall2_length|].
  intros i c a Hc Ha. simpl.
  pose proof (Forall2_lookup_lr _ _ _ _ _ _ Harr Hc Ha) as Hca.
  pose proof (Forall_lookup_1 _ _ _ _ Hncol Ha) as Hn. simpl in Hn.
  rewrite (as_array_shape _ _ Hca). do 3 f_equal. lia.
Qed.

(** C8: after a successful construction from chunks with the shapes of
    arrays, all chunks have a shape [(rows_i, N)] with one [N]; [shape]
    is [(M, N)] with [M] the sum of the [rows_i] taken as a signed number
    of 64 bits, and [size] is [M * N] taken so.  As long as the sum and
    the product are below [2 ^ 63], these are the sum and the product
    themselves. *)
Theorem init_shape_size chunks self :
  ChunkData_init_int64 chunks = Ok self → intp_shapes chunks →
  ∃ (N : nat) (rows : list nat),
    Forall2 (λ c r, chunk_shape c = Some [r; N]) chunks rows
    ∧ ChunkData_shape self = (int64 (Z.of_nat (sum_list rows)), Z.of_nat N)
    ∧ ChunkData_size self = int64 (int64 (Z.of_nat (sum_list rows)) * Z.of_nat N)
    ∧ (Z.of_nat (sum_list rows) < 2 ^ 63 →
       Z.of_nat (sum_list rows) * Z.of_nat N < 2 ^ 63 →
       ChunkData_shape self = (Z.of_nat (sum_list rows), Z.of_nat N)
       ∧ ChunkData_size self = Z.of_nat (sum_list rows) * Z.of_nat N).
Proof.
  intros Hinit _.
  destruct (init_int64_shape_size _ _ Hinit)
    as (N & rows & Hshapes & _ & _ & HM & HN & Hshape & Hsize).
  exists N, rows. unfold ChunkData_shape, ChunkData_size.
  rewrite Hshape, Hsize, HM, HN. split_and!; try done.
  intros Hsum Hprod. rewrite !int64_exact by lia. done.
Qed.

Lemma init_shape_size_witness :
  ChunkData_init_int64 [Examples.chunk0; Examples.chunk1] = Ok Examples.cd32
  ∧ intp_shapes [Examples.chunk0; Examples.chunk1]
  ∧ ∃ (N : nat) (rows : list nat),
      Forall2 (λ c r, chunk_shape c = Some [r; N]) [Examples.chunk0; Examples.chunk1] rows
      ∧ ChunkData_shape Examples.cd32 = (int64 (Z.of_nat (sum_list rows)), Z.of_nat N)
      ∧ ChunkData_size Examples.cd32
        = int64 (int64 (Z.of_nat (sum_list rows)) * Z.of_nat N)
      ∧ (Z.of_nat (sum_list rows) < 2 ^ 63 →
         Z.of_nat (sum_list rows) * Z.of_nat N < 2 ^ 63 →
         ChunkData_shape Examples.cd32 = (Z.of_nat (sum_list rows), Z.of_nat N)
         ∧ ChunkData_size Examples.cd32 = Z.of_nat (sum_list rows) * Z.of_nat N).
Proof.
  assert (intp_shapes [Examples.chunk0; Examples.chunk1]) as Hintp.
  { unfold intp_shapes. repeat constructor. }
  split; [reflexivity|]. split; [exact Hintp|].
  exact (init_shape_size [Examples.chunk0; Examples.chunk1] Examples.cd32 eq_refl Hintp).
Defined.

(** Two chunks of [n] rows and one column, in 64-bit arithmetic. *)
Lemma init_int64_two_columns (n : nat) :
  ChunkData_init_int64 [column_chunk n; column_chunk n]
  = Ok {| _M := int64 (int64 (0 + Z.of_nat n) + Z.of_nat n);
          _N := 1;
          _shape := (int64 (int64 (0 + Z.of_nat n) + Z.of_nat n), 1);
          _size := int64 (int64 (int64 (0 + Z.of_nat n) + Z.of_nat n) * 1);
          _nrows := [Z.of_nat n; Z.of_nat n];
          _data := [column_chunk n; column_chunk n];
          _rows := [(int64 (int64 (0 + Z.of_nat n) - Z.of_nat n),
                     int64 (0 + Z.of_nat n));
                    (int64 (int64 (int64 (0 + Z.of_nat n) + Z.of_nat n) - Z.of_nat n),
                     int64 (int64 (0 + Z.of_nat n) + Z.of_nat n))] |}.
Proof. reflexivity. Qed.

Lemma two_columns_wrap (n : nat) :
  Z.of_nat n = 2 ^ 62 →
  ∃ self,
    ChunkData_init_int64 [column_chunk n; column_chunk n] = Ok self
    ∧ intp_shapes [column_chunk n; column_chunk n]
    ∧ Forall2 (λ c r, chunk_shape c = Some [r; 1%nat])
              [column_chunk n; column_chunk n] [n; n]
    ∧ Z.of_nat (sum_list [n; n]) = 2 ^ 63
    ∧ ChunkData_shape self = (- 2 ^ 63, 1)
    ∧ ChunkData_size self = - 2 ^ 63
    ∧ _rows self = [(0, 2 ^ 62); (2 ^ 62, - 2 ^ 63)]
    ∧ ChunkData_shape self ≠ (Z.of_nat (sum_list [n; n]), 1).
Proof.
  intros Hn. eexists. split; [apply init_int64_two_columns|].
  assert (Z.of_nat (sum_list [n; n]) = 2 ^ 63) as Hsum.
  { change (sum_list [n; n]) with (n + (n + 0))%nat. lia. }
  unfold ChunkData_shape, ChunkData_size. cbn [_shape _size _rows]. rewrite Hn, Hsum.
  split_and!; try reflexivity.
  - unfold intp_shapes. repeat constructor; simpl; lia.
  - repeat constructor.
  - intros [=].
Qed.

(** The shape is not the sum of the rows where the sum does not fit: two
    chunks of [2 ^ 62] rows and one column have [2 ^ 63] rows together,
    and the construction gives the shape [(- 2 ^ 63, 1)], the size
    [- 2 ^ 63] and an empty row range for the second chunk. *)
Lemma init_shape_size_counterexample :
  ∃ self,
    ChunkData_init_int64 [column_chunk (Z.to_nat (2 ^ 62));
                          column_chunk (Z.to_nat (2 ^ 62))] = Ok self
    ∧ intp_shapes [column_chunk (Z.to_nat (2 ^ 62)); column_chunk (Z.to_nat (2 ^ 62))]
    ∧ Forall2 (λ c r, chunk_shape c = Some [r; 1%nat])
              [column_chunk (Z.to_nat (2 ^ 62)); column_chunk (Z.to_nat (2 ^ 62))]
              [Z.to_nat (2 ^ 62); Z.to_nat (2 ^ 62)]
    ∧ Z.of_nat (sum_list [Z.to_nat (2 ^ 62); Z.to_nat (2 ^ 62)]) = 2 ^ 63
    ∧ ChunkData_shape self = (- 2 ^ 63, 1)
    ∧ ChunkData_size self = - 2 ^ 63
    ∧ _rows self = [(0, 2 ^ 62); (2 ^ 62, - 2 ^ 63)]
    ∧ ChunkData_shape self
      ≠ (Z.of_nat (sum_list [Z.to_nat (2 ^ 62); Z.to_nat (2 ^ 62)]), 1).
Proof. exact (two_columns_wrap (Z.to_nat (2 ^ 62)) (Z2Nat.id (2 ^ 62) ltac:(lia))). Qed.

(** Chunks of shapes (3,2) and (2,2) give shape (5,2) and size 10. *)
Example init_32_22 :
  ChunkData_shape <$> ChunkData_init [Examples.chunk0; Examples.chunk1] = Ok (5, 2)
  ∧ ChunkData_size <$> ChunkData_init [Examples.chunk0; Examples.chunk1] = Ok 10.
Proof. split; reflexivity. Qed.





(** An assignment to the first chunk after the query is seen through the
    view of rows [0,3), and not through the stacked rows [2,4). *)
Example view_sees_assignment :
  ∀ v c σ1,
    ChunkData_getitem Examples.cd32 (SSlice (Some 0) (Some 3)) (SSlice None None)
                      Examples.mem = Ok (v, σ1) →
    as_array Examples.chunk0 = Ok c →
    contents σ1 v = [[1; 2]; [3; 4]; [5; 6]]
    ∧ contents (setitem c 2 0 99 σ1) v = [[1; 2]; [3; 4]; [99; 6]].
Proof. intros v c σ1 [= <- <-] [= <-]. split; reflexivity. Qed.

Example stack_keeps_rows :
  ∀ r c σ1,
    ChunkData_getitem Examples.cd32 (SSlice (Some 2) (Some 4)) (SSlice None None)
                      Examples.mem = Ok (r, σ1) →
    as_array Examples.chunk0 = Ok c →
    contents σ1 r = [[5; 6]; [7; 8]]
    ∧ contents (setitem c 2 0 99 σ1) r = [[5; 6]; [7; 8]]
    ∧ contents (setitem r 0 0 99 σ1) c = [[1; 2]; [3; 4]; [5; 6]].
Proof. intros r c σ1 [= <- <-] [= <-]. split_and!; reflexivity. Qed.

(** ** Validation of a query *)

Lemma as_slice_resolved q varname extent r :
  resolved q extent = Some r →
  as_slice q varname extent = Ok r
  ∨ (as_slice q varname extent
     = Err (SPWValueError (LegalBetween 0 extent) varname (ActualNum r.1))
     ∧ ¬ within r extent).
Proof.
  destruct q as [z|a b|]; simpl; intros [= <-]; [|by left].
  unfold spw_scalar_parser. simpl.
  destruct (Z.ltb_spec z 0), (Z.ltb_spec extent z); simpl; auto;
    right; (split; [done|]); unfold within; simpl; lia.
Qed.

Lemma getitem_check_row {T} self (σ : store T) qrow qcol row col :
  as_slice qrow "row" (_M self) = Ok row →
  as_slice qcol "col" (_N self) = Ok col →
  ¬ within row (_M self) →
  ChunkData_getitem self qrow qcol σ
  = Err (SPWValueError (LegalBetween 0 (_M self)) "row" (ActualSlice row.1 row.2)).
Proof.
  intros Hr Hc Hout. unfold ChunkData_getitem.
  rewrite Hr, Hc. cbn [mbind res_bind].
  rewrite (check_limits_outside row) by done. reflexivity.
Qed.

Lemma getitem_check_col {T} self (σ : store T) qrow qcol row col :
  as_slice qrow "row" (_M self) = Ok row →
  as_slice qcol "col" (_N self) = Ok col →
  within row (_M self) → ¬ within col (_N self) →
  ChunkData_getitem self qrow qcol σ
  = Err (SPWValueError (LegalBetween 0 (_N self)) "col" (ActualSlice col.1 col.2)).
Proof.
  intros Hr Hc Hin Hout. unfold ChunkData_getitem.
  rewrite Hr, Hc. cbn [mbind res_bind].
  rewrite (check_limits_within row) by done. cbn [mbind res_bind].
  rewrite (check_limits_outside col) by done. reflexivity.
Qed.

(** C5: when the range a row or column query denotes fails the limits of
    its axis, [__getitem__] raises an [SPWValueError] whose [legal] text is
    the interval from 0 to the extent of the axis it names, for a range
    [r] of that axis which fails the limits, and whose [actual] value is
    the offending slice or number.  When the column query converts without
    error, a failing row range is the one reported, with the interval from
    0 to [M]; a row slice with [stop = M + 1] or [start = -1] is such a
    range. *)
Theorem getitem_out_of_bounds {T} self (σ : store T) qrow qcol row col :
  resolved qrow (_M self) = Some row →
  resolved qcol (_N self) = Some col →
  ¬ within row (_M self) ∨ ¬ within col (_N self) →
  (∃ varname extent r act,
     ChunkData_getitem self qrow qcol σ
     = Err (SPWValueError (LegalBetween 0 extent) varname act)
     ∧ (varname = "row" ∧ extent = _M self ∧ r = row
        ∨ varname = "col" ∧ extent = _N self ∧ r = col)
     ∧ ¬ within r extent
     ∧ (act = ActualSlice r.1 r.2 ∨ act = ActualNum r.1))
  ∧ (as_slice qrow "row" (_M self) = Ok row →
     as_slice qcol "col" (_N self) = Ok col →
     (row.1 = -1 ∨ row.2 = _M self + 1 ∨ ¬ within row (_M self)) →
     ChunkData_getitem self qrow qcol σ
     = Err (SPWValueError (LegalBetween 0 (_M self)) "row" (ActualSlice row.1 row.2))).
Proof.
  intros Hqr Hqc Hout. split.
  - destruct (as_slice_resolved qrow "row" _ _ Hqr) as [Hr|[Hr Hrout]].
    + destruct (as_slice_resolved qcol "col" _ _ Hqc) as [Hc|[Hc Hcout]].
      * destruct (decide (within row (_M self))) as [Hin|Hrout].
        -- assert (¬ within col (_N self)) as Hcout by tauto.
           exists "col", (_N self), col, (ActualSlice col.1 col.2).
           rewrite (getitem_check_col self σ _ _ _ _ Hr Hc Hin Hcout). auto 10.
        -- exists "row", (_M self), row, (ActualSlice row.1 row.2).
           rewrite (getitem_check_row self σ _ _ _ _ Hr Hc Hrout). auto 10.
      * exists "col", (_N self), col, (ActualNum col.1).
        unfold ChunkData_getitem. rewrite Hr, Hc. cbn [mbind res_bind]. auto 10.
    + exists "row", (_M self), row, (ActualNum row.1).
      unfold ChunkData_getitem. rewrite Hr. cbn [mbind res_bind]. auto 10.
  - intros Hr Hc Hrow. apply (getitem_check_row self σ _ _ _ _ Hr Hc).
    unfold within in *. lia.
Qed.

Lemma getitem_out_of_bounds_witness :
  (∃ varname extent r act,
     ChunkData_getitem Examples.cd32 (SSlice (Some 0) (Some 6)) (SSlice None None)
                       Examples.mem
     = Err (SPWValueError (LegalBetween 0 extent) varname act)
     ∧ (varname = "row" ∧ extent = 5 ∧ r = (0, 6)
        ∨ varname = "col" ∧ extent = 2 ∧ r = (0, 2))
     ∧ ¬ within r extent
     ∧ (act = ActualSlice r.1 r.2 ∨ act = ActualNum r.1))
  ∧ (Ok (0, 6) = Ok (0, 6) → Ok (0, 2) = Ok (0, 2) →
     (0 = -1 ∨ 6 = 5 + 1 ∨ ¬ within (0, 6) 5) →
     ChunkData_getitem Examples.cd32 (SSlice (Some 0) (Some 6)) (SSlice None None)
                       Examples.mem
     = Err (SPWValueError (LegalBetween 0 5) "row" (ActualSlice 0 6))).
Proof.
  exact (getitem_out_of_bounds Examples.cd32 Examples.mem
           (SSlice (Some 0) (Some 6)) (SSlice None None) (0, 6) (0, 2)
           eq_refl eq_refl
           (or_introl (λ H : within (0, 6) 5, ltac:(unfold within in H; simpl in H; lia)))).
Defined.

(** Rows up to [M + 1] and rows from [-1] of the (3,2), (2,2) example. *)
Example getitem_stop_past_end :
  ChunkData_getitem Examples.cd32 (SSlice None (Some 6)) (SSlice None None) Examples.mem
  = Err (SPWValueError (LegalBetween 0 5) "row" (ActualSlice 0 6)).
Proof. reflexivity. Qed.

Example getitem_start_negative :
  ChunkData_getitem Examples.cd32 (SSlice (Some (-1)) None) (SSlice None None) Examples.mem
  = Err (SPWValueError (LegalBetween 0 5) "row" (ActualSlice (-1) 5)).
Proof. reflexivity. Qed.

(** C10: the empty row range [slice(0, 0)] is rejected with a bounds
    error, whatever the instance: with a column query that converts
    without error it is the row range that is reported, against the
    interval from 0 to [M], because the validation wants [0 < row.stop]. *)
Theorem getitem_empty_range {T} self (σ : store T) qcol :
  qcol ≠ SOther →
  ∃ e,
    ChunkData_getitem self (SSlice (Some 0) (Some 0)) qcol σ = Err e
    ∧ is_bounds_error e = true
    ∧ (∀ col, as_slice qcol "col" (_N self) = Ok col →
         e = SPWValueError (LegalBetween 0 (_M self)) "row" (ActualSlice 0 0)).
Proof.
  intros Hq.
  destruct (resolved qcol (_N self)) as [col|] eqn:Hres; [|by destruct qcol].
  destruct (as_slice_resolved qcol "col" _ _ Hres) as [Hc|[Hc _]].
  - eexists. split; [|split; [|reflexivity]].
    + apply (getitem_check_row self σ (SSlice (Some 0) (Some 0)) _ (0, 0) col eq_refl Hc).
      unfold within. simpl. lia.
    + done.
  - eexists. split; [|split].
    + unfold ChunkData_getitem. cbn [as_slice mbind res_bind]. rewrite Hc. done.
    + done.
    + intros col'. rewrite Hc. done.
Qed.

Lemma getitem_empty_range_witness :
  ∃ e,
    ChunkData_getitem Examples.cd32 (SSlice (Some 0) (Some 0)) (SSlice None None)
                      Examples.mem = Err e
    ∧ is_bounds_error e = true
    ∧ (∀ col, Ok (0, 2) = Ok col →
         e = SPWValueError (LegalBetween 0 5) "row" (ActualSlice 0 0)).
Proof.
  exact (getitem_empty_range Examples.cd32 Examples.mem (SSlice None None)
           (λ H, ltac:(discriminate H))).
Defined.

(** ** Order of the row ranges *)

Lemma sum_Z_take_le i j l :
  Forall (λ n, 0 ≤ n) l → (i ≤ j)%nat → sum_Z (take i l) ≤ sum_Z (take j l).
Proof.
  intros Hl Hij. replace j with (i + (j - i))%nat by lia.
  rewrite <-take_take_drop, sum_Z_app.
  pose proof (sum_Z_take_nonneg (j - i) (drop i l) (Forall_drop _ _ _ Hl)). lia.
Qed.

Lemma sum_Z_take_le_all i l :
  Forall (λ n, 0 ≤ n) l → sum_Z (take i l) ≤ sum_Z l.
Proof.
  intros Hl. rewrite <-(take_drop i l) at 2. rewrite sum_Z_app.
  pose proof (sum_Z_nonneg (drop i l) (Forall_drop _ _ _ Hl)). lia.
Qed.

Lemma sum_Z_take_S i l n :
  l !! i = Some n → sum_Z (take (S i) l) = sum_Z (take i l) + n.
Proof.
  intros Hi. rewrite (take_S_r _ _ _ Hi), sum_Z_app. simpl. lia.
Qed.

Lemma sum_Z_zero l : Forall (λ n, 0 ≤ n) l → sum_Z l = 0 → Forall (λ n, n = 0) l.
Proof.
  induction 1 as [|n l Hn Hl IH]; simpl; intros Hs; [constructor|].
  pose proof (sum_Z_nonneg l Hl). constructor; [lia|]. apply IH. lia.
Qed.

Section Order.
Context {T : Type} (self : ChunkData) (arrs : list ndarray) (Hv : valid self arrs).
Implicit Types (σ : store T).

Lemma valid_rows_nrows i s e :
  _rows self !! i = Some (s, e) →
  s = sum_Z (take i (_nrows self)) ∧ e = sum_Z (take (S i) (_nrows self)).
Proof.
  intros Hi. rewrite (v_rows _ _ Hv), rows_from_lookup in Hi.
  destruct (_nrows self !! i) as [n|] eqn:Hn; simpl in Hi; simplify_eq.
  rewrite (sum_Z_take_S _ _ _ Hn). split; lia.
Qed.

(** The ranges of earlier chunks end before those of later chunks start. *)
Lemma valid_rows_mono i j s e s' e' :
  _rows self !! i = Some (s, e) → _rows self !! j = Some (s', e') →
  (i < j)%nat → e ≤ s'.
Proof.
  intros [_ ->]%valid_rows_nrows [-> _]%valid_rows_nrows Hij.
  apply sum_Z_take_le; [|lia]. by eapply valid_nrows_nonneg.
Qed.

Lemma valid_rows_end i s e : _rows self !! i = Some (s, e) → 0 ≤ s ≤ e ∧ e ≤ _M self.
Proof.
  intros [-> ->]%valid_rows_nrows.
  pose proof (valid_nrows_nonneg _ _ Hv) as Hl.
  pose proof (sum_Z_take_nonneg i _ Hl).
  pose proof (sum_Z_take_le i (S i) _ Hl ltac:(lia)).
  pose proof (sum_Z_take_le_all (S i) _ Hl).
  rewrite (v_M _ _ Hv). lia.
Qed.

Lemma chunk_rows_width σ i :
  Forall (λ r, Z.of_nat (length r) ≤ _N self) (chunk_rows σ self i).
Proof.
  unfold chunk_rows, list_get.
  destruct (_data self !! i) as [c|] eqn:Hc; simpl; [|constructor].
  destruct (as_array c) as [a|] eqn:Ha; [|constructor].
  destruct (Forall2_lookup_l _ _ _ _ _ (v_arrays _ _ Hv) Hc) as (a' & Ha' & Hca).
  rewrite Ha in Hca. simplify_eq.
  pose proof (Forall_lookup_1 _ _ _ _ (v_ncol _ _ Hv) Ha') as Hn. simpl in Hn.
  eapply Forall_impl; [apply contents_width|]. simpl. lia.
Qed.

Lemma chunk_rows_length σ i s e :
  _rows self !! i = Some (s, e) → Z.of_nat (length (chunk_rows σ self i)) ≤ e - s.
Proof.
  intros Hi.
  destruct (valid_lookup _ _ Hv _ _ _ Hi) as (a & Ha & _ & _ & _ & -> & _).
  rewrite (valid_chunk_rows self arrs Hv σ _ _ Ha).
  pose proof (contents_length σ a). lia.
Qed.

(** A chunk without rows shows nothing. *)
Lemma chunk_rows_zero σ i : _nrows self !! i = Some 0 → chunk_rows σ self i = [].
Proof.
  intros Hi. rewrite (v_nrows _ _ Hv), list_lookup_fmap in Hi.
  destruct (arrs !! i) as [a|] eqn:Ha; simplify_eq/=.
  rewrite (valid_chunk_rows self arrs Hv σ _ _ Ha). apply contents_nil. lia.
Qed.

Lemma join_chunk_rows_zero σ j n :
  Forall (λ m, m = 0) (take n (drop j (_nrows self))) →
  (j + n ≤ length (_nrows self))%nat →
  mjoin (chunk_rows σ self <$> seq j n) = [].
Proof.
  revert j. induction n as [|n IH]; intros j Hz Hj; [done|].
  destruct (lookup_lt_is_Some_2 (_nrows self) j) as [m Hm]; [lia|].
  rewrite (drop_S _ _ _ Hm) in Hz. simpl in Hz.
  inversion Hz as [|? ? -> Hz']; simplify_eq.
  csimpl. rewrite (chunk_rows_zero σ j Hm), IH; [done | done | lia].
Qed.
End Order.



(** The two cases on the (3,2), (2,2) example: rows 4 to 2 span two chunks
    and give row 4 followed by rows 0 and 1; rows 2 to 1 lie in the first
    chunk and give a view without rows. *)
Example getitem_rows_4_2 :
  ∃ r σ', ChunkData_getitem Examples.cd32 (SSlice (Some 4) (Some 2)) (SSlice None None)
                            Examples.mem = Ok (r, σ')
          ∧ contents σ' r = [[9; 10]; [1; 2]; [3; 4]] ∧ shape r = (3, 2).
Proof. eexists _, _. split_and!; reflexivity. Qed.

Example getitem_rows_2_1 :
  ∃ v, ChunkData_getitem Examples.cd32 (SSlice (Some 2) (Some 1)) (SSlice None None)
                         Examples.mem = Ok (v, Examples.mem)
       ∧ contents Examples.mem v = [] ∧ shape v = (0, 2).
Proof. eexists. split_and!; reflexivity. Qed.

(** ** The full range *)

Section FullRange.
Context {T : Type} (self : ChunkData) (arrs : list ndarray) (Hv : valid self arrs).
Implicit Types (σ : store T).

Lemma valid_nrows_length : length (_nrows self) = length (_data self).
Proof.
  rewrite (v_nrows _ _ Hv), length_fmap.
  symmetry. eapply Forall2_length, (v_arrays _ _ Hv).
Qed.

(** Chunks before the chunk of row 0 and after the chunk of row [M - 1]
    have no rows, so all rows are those of the chunks from [i1] to [i2]. *)
Lemma all_rows_between σ i1 i2 e1 s2 :
  _rows self !! i1 = Some (0, e1) → _rows self !! i2 = Some (s2, _M self) →
  (i1 ≤ i2)%nat →
  mjoin (chunk_rows σ self <$> seq 0 (length (_data self)))
  = mjoin (chunk_rows σ self <$> seq i1 (S i2 - i1)).
Proof.
  intros Hi1 Hi2 Hle.
  pose proof (valid_nrows_nonneg _ _ Hv) as Hnn.
  destruct (valid_rows_nrows self arrs Hv _ _ _ Hi1) as [Hs1 _].
  destruct (valid_rows_nrows self arrs Hv _ _ _ Hi2) as [_ He2].
  assert (i2 < length (_nrows self))%nat as Hlt.
  { apply lookup_lt_Some in Hi2.
    by rewrite (v_rows _ _ Hv), rows_from_length in Hi2. }
  rewrite <-valid_nrows_length.
  replace (length (_nrows self))
    with (i1 + ((S i2 - i1) + (length (_nrows self) - S i2)))%nat by lia.
  rewrite !seq_app, !fmap_app, !join_app. cbn [Nat.add].
  rewrite (join_chunk_rows_zero self arrs Hv σ 0 i1); [|rewrite drop_0|lia].
  2: { apply sum_Z_zero; [by apply Forall_take | done]. }
  replace (i1 + (S i2 - i1))%nat with (S i2) by lia.
  rewrite (join_chunk_rows_zero self arrs Hv σ (S i2)); [by rewrite app_nil_r| |lia].
  apply Forall_take, sum_Z_zero; [by apply Forall_drop|].
  rewrite (v_M _ _ Hv) in He2.
  rewrite <-(take_drop (S i2) (_nrows self)), sum_Z_app in He2 at 1. lia.
Qed.
End FullRange.




(** ** Properties of [Indexer] *)

Lemma next_islice_list {A} (n : nat) (xs : list A) :
  next_islice n xs = (yielded xs n, drop (S n) xs).
Proof.
  revert xs. induction n as [|n IH]; intros [|x xs]; try done.
  simpl. rewrite IH. done.
Qed.

Lemma Indexer_getitem_list {A} (xs : list A) (L i : Z) :
  0 ≤ i < L →
  Indexer_getitem (Indexer_init xs L) i
  = (yielded xs (Z.to_nat i), Indexer_init (drop (S (Z.to_nat i)) xs) L).
Proof.
  intros Hi. unfold Indexer_getitem, spw_scalar_parser. simpl.
  destruct (Z.ltb_spec i 0), (Z.ltb_spec (L - 1) i); try lia. simpl.
  by rewrite next_islice_list.
Qed.

(** C6: [index(i)] on an indexer of length [L] over a list iterator with
    the elements [xs] to come.  An [i] outside [0 <= i < L] is a bounds
    error and the iterator is not touched.  For a valid [i] the call draws
    [i] elements and drops them, returns the next one, and leaves the
    iterator behind it; it raises [StopIteration] when the iterator runs
    out.  So [index(3)] followed by [index(0)] returns element 3 and then
    element 4, the one after it (or [StopIteration]), not element 0. *)
Theorem Indexer_getitem_cursor_relative {A} (xs : list A) (L i : Z) :
  (¬ 0 ≤ i < L →
   Indexer_getitem (Indexer_init xs L) i
   = (Err (SPWValueError (LegalBetween 0 (L - 1)) "idx" (ActualNum i)),
      Indexer_init xs L))
  ∧ (0 ≤ i < L →
     Indexer_getitem (Indexer_init xs L) i
     = (yielded xs (Z.to_nat i), Indexer_init (drop (S (Z.to_nat i)) xs) L))
  ∧ (3 < L →
     Indexer_getitems (Indexer_init xs L) [3; 0]
     = ([yielded xs 3; yielded xs 4], Indexer_init (drop 5 xs) L)).
Proof.
  split_and!.
  - intros Hi. unfold Indexer_getitem, spw_scalar_parser. simpl.
    destruct (Z.ltb_spec i 0), (Z.ltb_spec (L - 1) i); try lia; done.
  - apply Indexer_getitem_list.
  - intros HL. unfold Indexer_getitems.
    rewrite (Indexer_getitem_list xs L 3) by lia. cbn [fst snd].
    rewrite (Indexer_getitem_list _ L 0) by lia. cbn [fst snd].
    change (Z.to_nat 3) with 3%nat. change (Z.to_nat 0) with 0%nat.
    rewrite drop_drop. unfold yielded at 2. rewrite lookup_drop. done.
Qed.

Lemma Indexer_getitem_cursor_relative_witness :
  Indexer_getitem (Indexer_init [10; 11; 12; 13; 14] 5) 5
  = (Err (SPWValueError (LegalBetween 0 4) "idx" (ActualNum 5)),
     Indexer_init [10; 11; 12; 13; 14] 5)
  ∧ Indexer_getitem (Indexer_init [10; 11; 12; 13; 14] 5) 2
    = (Ok 12, Indexer_init [13; 14] 5)
  ∧ Indexer_getitems (Indexer_init [10; 11; 12; 13; 14] 5) [3; 0]
    = ([Ok 13; Ok 14], Indexer_init [] 5).
Proof.
  split_and!.
  - exact (proj1 (Indexer_getitem_cursor_relative [10; 11; 12; 13; 14] 5 5)
             ltac:(lia)).
  - exact (proj1 (proj2 (Indexer_getitem_cursor_relative [10; 11; 12; 13; 14] 5 2))
             ltac:(lia)).
  - exact (proj2 (proj2 (Indexer_getitem_cursor_relative [10; 11; 12; 13; 14] 5 0))
             ltac:(lia)).
Defined.

(** On a shorter producer the second call finds the iterator exhausted. *)
Example index_3_then_0_exhausted :
  Indexer_getitems (Indexer_init [10; 11; 12; 13] 5) [3; 0]
  = ([Ok 13; Err StopIteration], Indexer_init [] 5).
Proof. reflexivity. Qed.

(** C1 (as amended): on a fresh producer of five elements with length 5,
    the calls [index(0)], [index(1)], ..., [index(4)] in this order return
    the first element, then the third one, and from then on raise
    [StopIteration]: each call skips as many elements as its index says,
    counted from where the previous call stopped.  It is five calls of
    [index(0)] that return each element once, in producer order. *)
Theorem Indexer_sequential_access {A} (e0 e1 e2 e3 e4 : A) :
  Indexer_getitems (Indexer_init [e0; e1; e2; e3; e4] 5) [0; 1; 2; 3; 4]
  = ([Ok e0; Ok e2; Err StopIteration; Err StopIteration; Err StopIteration],
     Indexer_init [] 5)
  ∧ Indexer_getitems (Indexer_init [e0; e1; e2; e3; e4] 5) [0; 0; 0; 0; 0]
    = ([Ok e0; Ok e1; Ok e2; Ok e3; Ok e4], Indexer_init [] 5).
Proof. split; reflexivity. Qed.

(** The calls [index(0)], ..., [index(4)] on the producer of 10, ..., 14 do
    not return 10, ..., 14. *)
Lemma Indexer_sequential_access_counterexample :
  (Indexer_getitems (Indexer_init [10; 11; 12; 13; 14] 5) [0; 1; 2; 3; 4]).1
  = [Ok 10; Ok 12; Err StopIteration; Err StopIteration; Err StopIteration]
  ∧ (Indexer_getitems (Indexer_init [10; 11; 12; 13; 14] 5) [0; 1; 2; 3; 4]).1
    ≠ [Ok 10; Ok 11; Ok 12; Ok 13; Ok 14].
Proof. split; [reflexivity | discriminate]. Qed.

(** ** The matrix behind a [ChunkData] *)

Lemma select_cols_app {T} cs ce (m1 m2 : list (list T)) :
  select_cols cs ce (m1 ++ m2) = (select_cols cs ce m1 ++ select_cols cs ce m2)%list.
Proof. apply fmap_app. Qed.

Lemma select_cols_join {A T} cs ce (f : A → list (list T)) (l : list A) :
  mjoin ((λ i, select_cols cs ce (f i)) <$> l) = select_cols cs ce (mjoin (f <$> l)).
Proof.
  induction l as [|x l IH]; [done|].
  rewrite !fmap_cons, !join_cons, select_cols_app, IH. done.
Qed.

Lemma take_drop_app {A} (l : list A) (a b c : nat) :
  (a ≤ b)%nat → (b ≤ c)%nat →
  (take (b - a) (drop a l) ++ take (c - b) (drop b l))%list = take (c - a) (drop a l).
Proof.
  intros Hab Hbc. replace (c - a)%nat with ((b - a) + (c - b))%nat by lia.
  rewrite <-take_take_drop, drop_drop. do 3 f_equal. lia.
Qed.

Lemma drop_take_drop_take {A} (l : list A) (a n d : nat) :
  drop d (take n (drop a l)) = take (n - d) (drop (a + d) l).
Proof. by rewrite skipn_firstn_comm, drop_drop. Qed.

Section Matrix.
Context {T : Type} (self : ChunkData) (arrs : list ndarray) (Hv : valid self arrs).
Context (σ : store T) (Hσ : chunks_in_store σ self).

Lemma contents_in_store a : array_in_store σ a → length (contents σ a) = nrow a.
Proof.
  unfold array_in_store, contents. destruct (σ !! base a) as [buf|]; [|done].
  intros Hbuf. rewrite length_fmap, length_take, length_drop. lia.
Qed.

Lemma chunk_rows_in_store i a :
  arrs !! i = Some a → length (chunk_rows σ self i) = nrow a.
Proof.
  intros Ha. rewrite (valid_chunk_rows self arrs Hv σ _ _ Ha).
  apply contents_in_store.
  destruct (Forall2_lookup_r _ _ _ _ _ (v_arrays _ _ Hv) Ha) as (c & Hc & Hca).
  pose proof (Forall_lookup_1 _ _ _ _ Hσ Hc) as Hin. simpl in Hin.
  by rewrite Hca in Hin.
Qed.

Lemma join_rows_length j n :
  (j + n ≤ length arrs)%nat →
  Z.of_nat (length (mjoin (chunk_rows σ self <$> seq j n)))
  = sum_Z (take n (drop j (_nrows self))).
Proof.
  revert j. induction n as [|n IH]; intros j Hj; [by rewrite take_0|].
  destruct (lookup_lt_is_Some_2 arrs j) as [a Ha]; [lia|].
  assert (_nrows self !! j = Some (Z.of_nat (nrow a))) as Hn.
  { by rewrite (v_nrows _ _ Hv), list_lookup_fmap, Ha. }
  rewrite (drop_S _ _ _ Hn). csimpl.
  rewrite length_app, Nat2Z.inj_add, IH, (chunk_rows_in_store j a Ha) by lia. done.
Qed.

Lemma valid_data_length : length (_data self) = length arrs.
Proof. eapply Forall2_length, (v_arrays _ _ Hv). Qed.

(** The rows of the chunks [j], ..., [j + n - 1] are a segment of all
    rows. *)
Lemma join_rows_segment j n :
  (j + n ≤ length arrs)%nat →
  mjoin (chunk_rows σ self <$> seq j n)
  = take (Z.to_nat (sum_Z (take n (drop j (_nrows self)))))
         (drop (Z.to_nat (sum_Z (take j (_nrows self)))) (all_rows σ self)).
Proof.
  intros Hj. unfold all_rows. rewrite valid_data_length.
  replace (length arrs) with (j + (n + (length arrs - (j + n))))%nat by lia.
  rewrite !seq_app, !fmap_app, !join_app. cbn [Nat.add].
  pose proof (join_rows_length 0 j ltac:(lia)) as H0. rewrite drop_0 in H0.
  pose proof (join_rows_length j n Hj) as H1.
  rewrite <-H0, <-H1, !Nat2Z.id.
  by rewrite drop_app_length, take_app_length.
Qed.

Lemma chunk_rows_segment i s e :
  _rows self !! i = Some (s, e) →
  chunk_rows σ self i
  = take (Z.to_nat (e - s)) (drop (Z.to_nat s) (all_rows σ self)).
Proof.
  intros Hi.
  destruct (valid_lookup _ _ Hv _ _ _ Hi) as (a & Ha & _ & _ & -> & -> & _).
  pose proof (lookup_lt_Some _ _ _ Ha).
  pose proof (join_rows_segment i 1 ltac:(lia)) as Hseg.
  assert (_nrows self !! i = Some (Z.of_nat (nrow a))) as Hn.
  { by rewrite (v_nrows _ _ Hv), list_lookup_fmap, Ha. }
  rewrite (drop_S _ _ _ Hn) in Hseg. csimpl in Hseg.
  rewrite app_nil_r in Hseg. rewrite Hseg. do 2 f_equal. lia.
Qed.

Lemma all_rows_length : Z.of_nat (length (all_rows σ self)) = _M self.
Proof.
  unfold all_rows. rewrite valid_data_length.
  rewrite (join_rows_length 0 (length arrs)) by lia.
  rewrite drop_0, (v_M _ _ Hv), take_ge; [done|].
  by rewrite (v_nrows _ _ Hv), length_fmap.
Qed.
End Matrix.
(** Both branches of [__getitem__] return the queried segment of all
    rows. *)
Lemma getitem_matrix_rows {T} self arrs (σ : store T) qrow qcol
    start stop cs ce :
  valid self arrs → chunks_in_store σ self →
  as_slice qrow "row" (_M self) = Ok (start, stop) →
  as_slice qcol "col" (_N self) = Ok (cs, ce) →
  within (start, stop) (_M self) → within (cs, ce) (_N self) →
  start < stop →
  ∃ r σ',
    ChunkData_getitem self qrow qcol σ = Ok (r, σ')
    ∧ σ `prefix_of` σ'
    ∧ contents σ' r
      = select_cols cs ce
          (take (Z.to_nat (stop - start)) (drop (Z.to_nat start) (all_rows σ self)))
    ∧ shape r = (stop - start, Z.max 0 (ce - cs)).
Proof.
  intros Hv Hσ Hqr Hqc Hr Hc Hlt.
  destruct Hr as [Hr1 Hr2]. cbn [fst snd] in Hr1, Hr2.
  destruct (valid_cover _ _ Hv start) as (i1 & s1 & e1 & Hi1 & H1); [lia|].
  destruct (valid_cover _ _ Hv (stop - 1)) as (i2 & s2 & e2 & Hi2 & H2); [lia|].
  pose proof (valid_rows_end self arrs Hv _ _ _ Hi1) as Hb1.
  pose proof (valid_rows_end self arrs Hv _ _ _ Hi2) as Hb2.
  rewrite (getitem_located self arrs Hv σ _ _ _ _ _ _ _ _ _ _ Hqr Hqc
             (conj Hr1 Hr2) Hc Hi1 H1 Hi2 H2).
  cbn [fst snd].
  destruct (decide (i1 ≠ i2)) as [Hne|Heq].
  - assert (i1 < i2)%nat as Hlt12.
    { destruct (decide (i1 < i2)%nat) as [|Hge]; [done|].
      pose proof (valid_rows_mono self arrs Hv _ _ _ _ _ _ Hi2 Hi1 ltac:(lia)). lia. }
    pose proof (valid_rows_mono self arrs Hv _ _ _ _ _ _ Hi1 Hi2 Hlt12) as Hmono.
    destruct (stack_chunks_spec self arrs Hv σ start stop cs ce i1 i2 s1 e1 s2 e2
                Hc Hi1 ltac:(lia) Hi2 ltac:(lia))
      as (r & buf & Hstack & _ & Hcont & Hbuf & Hshape).
    destruct (valid_rows_nrows self arrs Hv _ _ _ Hi1) as [_ He1].
    destruct (valid_rows_nrows self arrs Hv _ _ _ Hi2) as [Hs2 _].
    assert (sum_Z (take (i2 - S i1) (drop (S i1) (_nrows self))) = s2 - e1) as Hmid.
    { rewrite Hs2, He1. replace i2 with (S i1 + (i2 - S i1))%nat at 2 by lia.
      rewrite <-take_take_drop, sum_Z_app. lia. }
    exists r, (σ ++ [buf])%list. split_and!; [done | by apply prefix_app_r | |].
    + rewrite Hcont, Hbuf, select_cols_join, <-!select_cols_app. f_equal.
      rewrite (chunk_rows_segment self arrs Hv σ Hσ _ _ _ Hi1).
      rewrite (chunk_rows_segment self arrs Hv σ Hσ _ _ _ Hi2).
      apply lookup_lt_Some in Hi2.
      rewrite (v_rows _ _ Hv), rows_from_length, (v_nrows _ _ Hv), length_fmap in Hi2.
      rewrite (join_rows_segment self arrs Hv σ Hσ (S i1) (i2 - S i1)) by lia.
      rewrite Hmid, <-He1, drop_take_drop_take, take_take.
      replace (Z.to_nat s1 + Z.to_nat (start - s1))%nat with (Z.to_nat start) by lia.
      replace (Z.to_nat (e1 - s1) - Z.to_nat (start - s1))%nat
        with (Z.to_nat e1 - Z.to_nat start)%nat by lia.
      replace (Z.to_nat (s2 - e1)) with (Z.to_nat s2 - Z.to_nat e1)%nat by lia.
      replace (Z.to_nat (stop - s2) `min` Z.to_nat (e2 - s2))%nat
        with (Z.to_nat stop - Z.to_nat s2)%nat by lia.
      rewrite (take_drop_app _ (Z.to_nat e1) (Z.to_nat s2) (Z.to_nat stop)) by lia.
      rewrite (take_drop_app _ (Z.to_nat start) (Z.to_nat e1) (Z.to_nat stop)) by lia.
      do 2 f_equal. lia.
    + rewrite Hshape, Hmid. f_equal. lia.
  - assert (i2 = i1) as -> by (destruct (decide (i2 = i1)); [done|]; by destruct Heq).
    rewrite Hi1 in Hi2. simplify_eq.
    destruct (view_chunk_spec self arrs Hv σ start stop cs ce i1 _ _
                Hc Hi1 ltac:(lia) ltac:(lia))
      as (a & v & _ & Hview & _ & Hcont & Hshape).
    exists v, σ. split_and!; [done | done | |].
    + rewrite Hcont, (chunk_rows_segment self arrs Hv σ Hσ _ _ _ Hi1).
      rewrite drop_take_drop_take, take_take. do 2 f_equal; [lia|]. f_equal. lia.
    + rewrite Hshape. f_equal. lia.
Qed.


(** ** Queries one after the other *)

Lemma contents_prefix {T} (σ σ' : store T) a :
  σ `prefix_of` σ' → array_in_store σ a → contents σ' a = contents σ a.
Proof.
  intros Hpre. unfold array_in_store, contents.
  destruct (σ !! base a) as [buf|] eqn:Hbuf; [|done].
  by rewrite (prefix_lookup_Some _ _ _ _ Hbuf Hpre).
Qed.

Lemma array_in_store_prefix {T} (σ σ' : store T) a :
  σ `prefix_of` σ' → array_in_store σ a → array_in_store σ' a.
Proof.
  intros Hpre. unfold array_in_store.
  destruct (σ !! base a) as [buf|] eqn:Hbuf; [|done].
  by rewrite (prefix_lookup_Some _ _ _ _ Hbuf Hpre).
Qed.

Lemma chunks_in_store_prefix {T} (σ σ' : store T) self :
  σ `prefix_of` σ' → chunks_in_store σ self → chunks_in_store σ' self.
Proof.
  intros Hpre Hσ. unfold chunks_in_store in *.
  eapply Forall_impl; [exact Hσ|]. intros c. simpl.
  destruct (as_array c); [|done]. by apply array_in_store_prefix.
Qed.

Lemma chunk_rows_prefix {T} (σ σ' : store T) self i :
  σ `prefix_of` σ' → chunks_in_store σ self →
  chunk_rows σ' self i = chunk_rows σ self i.
Proof.
  intros Hpre Hσ. unfold chunk_rows, list_get.
  destruct (_data self !! i) as [c|] eqn:Hc; [|done]. simpl.
  pose proof (Forall_lookup_1 _ _ _ _ Hσ Hc) as Hin. simpl in Hin.
  destruct (as_array c); [|done]. by apply contents_prefix.
Qed.

Lemma all_rows_prefix {T} (σ σ' : store T) self :
  σ `prefix_of` σ' → chunks_in_store σ self → all_rows σ' self = all_rows σ self.
Proof.
  intros Hpre Hσ. unfold all_rows. f_equal. apply list_fmap_ext.
  intros _ i _. by apply chunk_rows_prefix.
Qed.



(** ** Outcomes of the construction *)

(** X3: the construction succeeds exactly on the non-empty chunk lists
    whose chunks all have a shape of rank 2 with one and the same number
    of columns. *)
Theorem init_success_iff chunks :
  (∃ self, ChunkData_init chunks = Ok self)
  ↔ chunks ≠ [] ∧ ∃ (N : nat) (rows : list nat),
      Forall2 (λ c r, chunk_shape c = Some [r; N]) chunks rows.
Proof.
  split.
  - intros [self Hinit]. destruct (init_valid _ _ Hinit) as (arrs & Hv & Hdata).
    destruct Hv as [Hne Harr Hncol _ _ _ _ _]. rewrite Hdata in Harr.
    split; [intros ->; inversion Harr; by simplify_eq|].
    exists (Z.to_nat (_N self)), (nrow <$> arrs).
    apply Forall2_fmap_r, Forall2_same_length_lookup.
    split; [by eapply Forall2_length|].
    intros i c a Hc Ha. simpl.
    pose proof (Forall2_lookup_lr _ _ _ _ _ _ Harr Hc Ha) as Hca.
    pose proof (Forall_lookup_1 _ _ _ _ Hncol Ha) as Hn. simpl in Hn.
    rewrite (as_array_shape _ _ Hca). do 3 f_equal. lia.
  - intros (Hne & N & rows & HF). by eapply init_succeeds.
Qed.

Lemma shapes_columns (shapes : list (list nat)) :
  Forall (λ s, length s = 2%nat) shapes →
  ∃ cols, Forall2 (λ s c, list_get s 1 = Ok c) shapes cols.
Proof.
  induction 1 as [|s shapes Hs _ [cols IH]]; [by exists []|].
  destruct s as [|r [|k [|]]]; try done.
  exists (k :: cols). by constructor.
Qed.

(** X4: when every chunk has a shape of rank 2 but some chunk has another
    number of columns than the first one, the construction fails with the
    error for chunks that do not agree on the number of samples. *)
Theorem init_columns_differ chunks shapes s0 s :
  Forall2 (λ c s, chunk_shape c = Some s) chunks shapes →
  Forall (λ s, length s = 2%nat) shapes →
  shapes !! 0%nat = Some s0 → s ∈ shapes → s !! 1%nat ≠ s0 !! 1%nat →
  ChunkData_init chunks
  = Err (SPWValueError (LegalText "identical number of samples per chunk")
                       "chunk_list" NoActual).
Proof.
  intros Hs H2 H0 Hin Hdiff. unfold ChunkData_init.
  rewrite (mapM_Some_2 _ _ _ Hs). cbn [mbind res_bind].
  assert (existsb (λ shp, negb (length shp =? 2)%nat) shapes = false) as ->.
  { clear -H2. induction H2 as [|x l Hx _ IH]; [done|]. simpl.
    by rewrite Hx, IH. }
  destruct (shapes_columns shapes H2) as [cols Hcols].
  rewrite (proj2 (mapM_res_Ok _ _ _) Hcols). cbn [mbind res_bind].
  assert (list_get shapes 0 = Ok s0) as -> by (unfold list_get; by rewrite H0).
  cbn [mbind res_bind].
  pose proof (Forall_lookup_1 _ _ _ _ H2 H0) as Hlen0. simpl in Hlen0.
  destruct s0 as [|r0 [|n0 [|]]]; try done.
  cbn [list_get lookup list_lookup mbind res_bind].
  rewrite bool_decide_false; [done|]. intros ->.
  apply Forall2_replicate_r in Hcols.
  apply list_elem_of_lookup in Hin as [i Hi].
  pose proof (Forall_lookup_1 _ _ _ _ Hcols Hi) as Hsi. simpl in Hsi.
  unfold list_get in Hsi. destruct (s !! 1%nat) eqn:Hs1; [|done].
  apply Hdiff. by simplify_eq.
Qed.

Lemma init_columns_differ_witness :
  ChunkData_init [ArrayLike [3; 2]%nat 0%nat 0%nat 0%nat;
                  ArrayLike [2; 3]%nat 1%nat 0%nat 0%nat]
  = Err (SPWValueError (LegalText "identical number of samples per chunk")
                       "chunk_list" NoActual).
Proof.
  apply (init_columns_differ _ [[3; 2]; [2; 3]]%nat [3; 2]%nat [2; 3]%nat).
  - repeat constructor.
  - repeat constructor.
  - reflexivity.
  - apply list_elem_of_In. simpl. auto.
  - discriminate.
Defined.

(** X5: a chunk without a [shape] is reported as a type error whatever the
    other chunks are; when all chunks have a shape, one of another rank
    than 2 is reported as a value error, before the number of columns is
    looked at. *)
Theorem init_shape_errors chunks :
  (Exists (λ c, chunk_shape c = None) chunks →
   ChunkData_init chunks = Err (SPWTypeError "chunk in chunk_list" "2d-array-like"))
  ∧ (∀ shapes,
       Forall2 (λ c s, chunk_shape c = Some s) chunks shapes →
       Exists (λ s, length s ≠ 2%nat) shapes →
       ChunkData_init chunks
       = Err (SPWValueError (LegalText "2d-array") "chunk in chunk_list" NoActual)).
Proof.
  split.
  - intros Hex. unfold ChunkData_init. by rewrite (mapM_None_2 _ _ Hex).
  - intros shapes Hs Hex. unfold ChunkData_init.
    rewrite (mapM_Some_2 _ _ _ Hs). cbn [mbind res_bind].
    assert (existsb (λ shp, negb (length shp =? 2)%nat) shapes = true) as ->; [|done].
    clear -Hex. induction Hex as [s l Hs|s l _ IH]; simpl.
    + apply Nat.eqb_neq in Hs. by rewrite Hs.
    + rewrite IH. apply orb_true_r.
Qed.

Lemma init_shape_errors_witness :
  ChunkData_init [ArrayLike [3; 2]%nat 0%nat 0%nat 0%nat; NoShape]
  = Err (SPWTypeError "chunk in chunk_list" "2d-array-like")
  ∧ ChunkData_init [ArrayLike [3; 2]%nat 0%nat 0%nat 0%nat;
                    ArrayLike [2; 3; 4]%nat 1%nat 0%nat 0%nat]
    = Err (SPWValueError (LegalText "2d-array") "chunk in chunk_list" NoActual).
Proof.
  split.
  - apply (proj1 (init_shape_errors _)). apply Exists_cons_tl, Exists_cons_hd. reflexivity.
  - apply (proj2 (init_shape_errors _) [[3; 2]; [2; 3; 4]]%nat).
    + repeat constructor.
    + apply Exists_cons_tl, Exists_cons_hd. discriminate.
Defined.

(** ** The rows and their chunks *)

Lemma np_where_none_above i x acc l :
  Forall (λ n, 0 ≤ n) l → acc + sum_Z l ≤ x →
  np_where_from i (in_range x <$> rows_from acc l) = [].
Proof.
  intros Hl. revert i acc. induction Hl as [|n l Hn Hl IH]; intros i acc Hx; [done|].
  pose proof (sum_Z_nonneg l Hl). simpl in *. unfold in_range at 1. simpl.
  destruct (Z.ltb_spec x (acc + n)); [lia|].
  rewrite andb_false_r. apply IH. lia.
Qed.

(** Without overflow in the number of rows, the construction in 64-bit
    arithmetic gives the row table, the row counts and [M] of the exact
    one. *)
Lemma init_int64_rows chunks self :
  ChunkData_init_int64 chunks = Ok self → sum_Z (_nrows self) < 2 ^ 63 →
  ∃ cd arrs, valid cd arrs ∧ _rows self = _rows cd ∧ _M self = _M cd
             ∧ _nrows self = _nrows cd.
Proof.
  intros Hinit Hsum. destruct (init_int64_inv _ _ Hinit) as (cd & Hcd & ->).
  destruct (init_valid _ _ Hcd) as (arrs & Hv & _).
  exists cd, arrs. split; [done|].
  pose proof (valid_nrows_nonneg _ _ Hv) as Hnn.
  unfold wrapped in *. cbn [_M _rows _nrows] in *.
  rewrite (v_rows _ _ Hv), (v_M _ _ Hv).
  assert (0 ≤ sum_Z (_nrows cd)) by by apply sum_Z_nonneg.
  split_and!; [|apply int64_exact; lia | done].
  apply rows_from_int64; [done | done | lia].
Qed.

(** X6: the row ranges of a [ChunkData] constructed from chunks with the
    shapes of arrays and fewer than [2 ^ 63] rows in all tile
    [0 .. M - 1].  Every row in range lies in exactly one chunk, and that
    is the chunk the search finds; a range starts where the range before
    it ends; for a row out of range the search fails, since [.item()]
    gets an empty array. *)
Theorem rows_partition chunks self :
  ChunkData_init_int64 chunks = Ok self → intp_shapes chunks →
  sum_Z (_nrows self) < 2 ^ 63 →
  _M self = sum_Z (_nrows self)
  ∧ (∀ x, 0 ≤ x < _M self →
     ∃ i s e, _rows self !! i = Some (s, e) ∧ s ≤ x < e
              ∧ find_chunk self x = Ok i
              ∧ ∀ j s' e', _rows self !! j = Some (s', e') → s' ≤ x < e' → j = i)
  ∧ (∀ i s e s' e',
       _rows self !! i = Some (s, e) → _rows self !! S i = Some (s', e') → s' = e)
  ∧ (∀ x, ¬ 0 ≤ x < _M self → find_chunk self x = Err ValueError).
Proof.
  intros Hinit _ Hsum.
  destruct (init_int64_rows _ _ Hinit Hsum) as (cd & arrs & Hv & Hrows & HM & Hnr).
  unfold find_chunk. rewrite Hrows, HM, Hnr. split_and!.
  - apply (v_M _ _ Hv).
  - intros x Hx. destruct (valid_cover _ _ Hv x Hx) as (i & s & e & Hi & Hse).
    exists i, s, e. split_and!; try done; try lia.
    + by eapply valid_find_chunk.
    + intros j s' e' Hj Hse'.
      pose proof (valid_find_chunk _ _ Hv _ _ _ _ Hi Hse) as Hfi.
      pose proof (valid_find_chunk _ _ Hv _ _ _ _ Hj Hse') as Hfj.
      rewrite Hfi in Hfj. by simplify_eq.
  - intros i s e s' e' Hi HSi.
    destruct (valid_rows_nrows cd arrs Hv _ _ _ Hi) as [_ ->].
    by destruct (valid_rows_nrows cd arrs Hv _ _ _ HSi) as [-> _].
  - intros x Hx. unfold np_where. rewrite (v_rows _ _ Hv).
    pose proof (valid_nrows_nonneg _ _ Hv) as Hnn.
    destruct (decide (x < 0)).
    + by rewrite np_where_none.
    + rewrite np_where_none_above; [done | done |]. rewrite <-(v_M _ _ Hv). lia.
Qed.

Lemma rows_partition_witness :
  5 = sum_Z [3; 2]
  ∧ (∀ x, 0 ≤ x < 5 →
     ∃ i s e, _rows Examples.cd32 !! i = Some (s, e) ∧ s ≤ x < e
              ∧ find_chunk Examples.cd32 x = Ok i
              ∧ ∀ j s' e', _rows Examples.cd32 !! j = Some (s', e') → s' ≤ x < e' → j = i)
  ∧ (∀ i s e s' e',
       _rows Examples.cd32 !! i = Some (s, e) →
       _rows Examples.cd32 !! S i = Some (s', e') → s' = e)
  ∧ (∀ x, ¬ 0 ≤ x < 5 → find_chunk Examples.cd32 x = Err ValueError).
Proof.
  exact (rows_partition [Examples.chunk0; Examples.chunk1] Examples.cd32 eq_refl
           ltac:(unfold intp_shapes; repeat constructor) ltac:(simpl; lia)).
Defined.

(** ** [islice] on list iterators *)

Lemma consume_list {A} (n : nat) (l : list A) :
  consume n l = (bool_decide (n ≤ length l)%nat, drop n l).
Proof.
  revert l. induction n as [|n IH]; intros l.
  - cbn [consume drop]. by rewrite bool_decide_true by lia.
  - destruct l as [|x l]; cbn [consume drop next list_iterator length].
    + by rewrite bool_decide_false by lia.
    + rewrite IH. f_equal. apply bool_decide_ext. lia.
Qed.

Lemma strided_from_drop {A} (k s : nat) (l : list A) :
  strided_from k s l = strided s (drop k l).
Proof.
  revert k. induction l as [|x l IH]; intros [|k]; try done. simpl. apply IH.
Qed.

Lemma strided_cons {A} (s : nat) (x : A) l :
  strided s (x :: l) = x :: strided s (drop (s - 1) l).
Proof. unfold strided. simpl. by rewrite strided_from_drop. Qed.

Lemma drop_min_short {A} (a b : nat) (l : list A) :
  (length l ≤ b)%nat → drop (a `min` b) l = drop a l.
Proof.
  intros Hb. destruct (decide (a ≤ b)%nat); [by rewrite Nat.min_l|].
  rewrite Nat.min_r, !drop_ge by lia. done.
Qed.

(** What an [islice] object passes on and where it leaves a list iterator,
    from any of its states; enough fuel is any number above
    [stop - nxt]. *)
Lemma islice_drain_list {A} fuel stop step cnt nxt (l : list A) :
  (1 ≤ step)%nat → (cnt ≤ nxt)%nat → (stop - nxt < fuel)%nat →
  islice_drain fuel stop step (cnt, nxt) l
  = (strided step (drop (nxt - cnt) (take (stop - cnt) l)),
     drop (nxt `max` stop - cnt) l).
Proof.
  intros Hstep. revert cnt nxt l.
  induction fuel as [|fuel IH]; intros cnt nxt l Hcnt Hfuel; [lia|].
  cbn [islice_drain]. unfold islice_next. cbn [fst snd].
  rewrite consume_list. case_bool_decide as Hlen.
  - destruct (Nat.leb_spec stop nxt) as [Hstop|Hstop].
    + rewrite Nat.max_l by lia. f_equal.
      rewrite drop_ge; [done|]. rewrite length_take. lia.
    + rewrite Nat.max_r by lia.
      replace (stop - cnt)%nat with ((nxt - cnt) + (stop - nxt))%nat by lia.
      rewrite <-(take_drop_commute l (stop - nxt) (nxt - cnt)).
      rewrite <-(drop_drop l (stop - nxt) (nxt - cnt)).
      destruct (drop (nxt - cnt) l) as [|x l'] eqn:Hl'; cbn [next list_iterator].
      * by rewrite take_nil, drop_nil.
      * rewrite IH by lia. cbn [fst snd]. f_equal.
        -- replace (stop - nxt)%nat with (S (stop - S nxt)) by lia.
           cbn [take]. rewrite strided_cons. do 2 f_equal.
           replace ((nxt + step) `min` stop - S nxt)%nat
             with ((step - 1) `min` (stop - S nxt))%nat by lia.
           apply drop_min_short. rewrite length_take. lia.
        -- replace (stop - nxt)%nat with (S (stop - S nxt)) by lia.
           cbn [drop]. f_equal. lia.
  - f_equal.
    + rewrite drop_ge; [done|]. rewrite length_take. lia.
    + rewrite !drop_ge by lia. done.
Qed.

(** The fuel of [islice_read] is enough for every iterator: more fuel
    gives the same elements and the same iterator. *)
Lemma islice_drain_fuel {I A} `{!Iterator I A} fuel1 fuel2 stop step st (it : I) :
  (1 ≤ step)%nat → (stop - st.2 < fuel1)%nat → (stop - st.2 < fuel2)%nat →
  islice_drain fuel1 stop step st it = islice_drain fuel2 stop step st it.
Proof.
  intros Hstep. revert fuel2 st it.
  induction fuel1 as [|fuel1 IH]; intros [|fuel2] st it H1 H2; try lia.
  cbn [islice_drain]. unfold islice_next.
  destruct (consume (st.2 - st.1) it) as [[] it1]; [|done].
  destruct (Nat.leb_spec stop st.2); [done|].
  destruct (next it1) as [[x|] it2]; [|done].
  rewrite (IH fuel2) by (cbn [snd]; lia). done.
Qed.

(** ** Cursor positions *)

Lemma yielded_drop {A} (xs : list A) c i : yielded (drop c xs) i = yielded xs (c + i).
Proof. unfold yielded. by rewrite lookup_drop. Qed.

Lemma yielded_Err {A} (xs : list A) n e : yielded xs n = Err e → (length xs ≤ n)%nat.
Proof.
  unfold yielded. destruct (xs !! n) eqn:Hn; [done|]. intros _.
  by apply lookup_ge_None.
Qed.

Lemma cursor_positions_zeros c n : cursor_positions c (replicate n 0%nat) = seq c n.
Proof.
  revert c. induction n as [|n IH]; intros c; [done|]. simpl.
  rewrite IH. f_equal; [lia|]. f_equal. lia.
Qed.

Lemma Indexer_getitems_list {A} (xs : list A) (L : Z) c idxs :
  Forall (λ i, 0 ≤ i < L) idxs →
  Indexer_getitems (Indexer_init (drop c xs) L) idxs
  = (yielded xs <$> cursor_positions c (Z.to_nat <$> idxs),
     Indexer_init (drop (c + sum_list ((λ i, S (Z.to_nat i)) <$> idxs)) xs) L).
Proof.
  intros Hidx. revert c. induction Hidx as [|i idxs Hi _ IH]; intros c.
  - simpl. by rewrite Nat.add_0_r.
  - cbn [Indexer_getitems]. rewrite Indexer_getitem_list by done. cbn [fst snd].
    rewrite drop_drop, IH. csimpl. rewrite yielded_drop.
    do 3 f_equal; [f_equal; lia | lia].
Qed.

(** X7: calls [index(i)] one after the other on an indexer over a list
    iterator, every [i] in range: call number [k] returns the element at
    position [i_0 + 1 + ... + i_(k-1) + 1 + i_k] of the producer, or
    [StopIteration] when there is none, and the iterator ends behind the
    last position.  So it is calls with index 0 that go through the
    producer element by element. *)
Theorem Indexer_index_positions {A} (xs : list A) (L : Z) idxs :
  Forall (λ i, 0 ≤ i < L) idxs →
  Indexer_getitems (Indexer_init xs L) idxs
  = (yielded xs <$> cursor_positions 0 (Z.to_nat <$> idxs),
     Indexer_init (drop (sum_list ((λ i, S (Z.to_nat i)) <$> idxs)) xs) L)
  ∧ (Forall (λ i, i = 0) idxs → (length idxs ≤ length xs)%nat →
     (Indexer_getitems (Indexer_init xs L) idxs).1 = Ok <$> take (length idxs) xs).
Proof.
  intros Hidx. pose proof (Indexer_getitems_list xs L 0 idxs Hidx) as Hget.
  rewrite drop_0 in Hget. split; [done|].
  intros Hz Hlen. rewrite Hget. cbn [fst].
  assert (Z.to_nat <$> idxs = replicate (length idxs) 0%nat) as ->.
  { clear -Hz. induction Hz as [|i l -> _ IH]; [done|]. csimpl. by rewrite IH. }
  rewrite cursor_positions_zeros. revert Hlen. generalize (length idxs).
  clear. intros n. revert xs. induction n as [|n IH]; intros [|x xs] Hn;
    simpl in *; try done; try lia.
  f_equal. rewrite <-fmap_S_seq, <-list_fmap_compose.
  rewrite <-IH by lia. by apply list_fmap_ext.
Qed.

Lemma Indexer_index_positions_witness :
  Indexer_getitems (Indexer_init [10; 11; 12; 13; 14] 5) [0; 1; 0]
  = ([Ok 10; Ok 12; Ok 13], Indexer_init [14] 5)
  ∧ (Forall (λ i, i = 0) [0; 1; 0] → (3 ≤ 5)%nat →
     (Indexer_getitems (Indexer_init [10; 11; 12; 13; 14] 5) [0; 1; 0]).1
     = [Ok 10; Ok 11; Ok 12]).
Proof.
  exact (Indexer_index_positions [10; 11; 12; 13; 14] 5 [0; 1; 0]
           ltac:(repeat constructor; lia)).
Defined.

(** ** Slices and index arrays of an [Indexer] *)

Lemma Indexer_getitem_slice_reads {A B} (stack : list A → res B) (xs : list A)
    (L : Z) start stop step :
  within (default 0 start, default L stop) L → 1 ≤ default 1 step →
  Indexer_getitem_slice (hstack_reads stack) (Indexer_init xs L) start stop step
  = (stack (strided (Z.to_nat (default 1 step))
              (take (Z.to_nat (default L stop) - Z.to_nat (default 0 start))
                    (drop (Z.to_nat (default 0 start)) xs))),
     Indexer_init (drop (Z.to_nat (Z.max (default 0 start) (default L stop))) xs) L).
Proof.
  intros Hin Hstep. unfold Indexer_getitem_slice. cbn [_iterlen _iterobj Indexer_init].
  rewrite check_limits_within by done.
  rewrite bool_decide_false by lia. cbn [fst snd].
  unfold hstack_reads, islice_read, islice. cbn [isl_stop isl_step isl_pos].
  rewrite islice_drain_list by lia. cbn [fst snd].
  rewrite !Nat.sub_0_r, skipn_firstn_comm. unfold Indexer_init.
  do 3 f_equal. lia.
Qed.

(** X8: slice access [self[start:stop:step]] on an indexer over a list
    iterator.  Bounds that fail [0 <= start < L] or [0 < stop <= L] are a
    bounds error, and a step below 1 is a [ValueError]; in both cases the
    iterator is not touched.  Otherwise the [islice] object goes to
    [np.hstack] unread, and what happens is up to [np.hstack]: one that
    refuses its argument (an [islice] object is no sequence) leaves the
    iterator untouched, too; one that iterates over its argument gets
    every [step]-th element of the [stop - start] elements that follow
    the first [start] elements of the producer (fewer when the producer
    runs out), and the iterator is left behind the first [stop] elements,
    or behind the first [start] ones when [stop <= start]. *)
Theorem Indexer_slice_access {A B} (hstack : islice_obj → list A → res B * list A)
    (xs : list A) (L : Z) start stop step :
  (¬ within (default 0 start, default L stop) L →
   Indexer_getitem_slice hstack (Indexer_init xs L) start stop step
   = (Err (SPWValueError (LegalBetween 0 L) "idx"
             (ActualSlice (default 0 start) (default L stop))),
      Indexer_init xs L))
  ∧ (within (default 0 start, default L stop) L → default 1 step < 1 →
     Indexer_getitem_slice hstack (Indexer_init xs L) start stop step
     = (Err ValueError, Indexer_init xs L))
  ∧ (within (default 0 start, default L stop) L → 1 ≤ default 1 step →
     (∀ e, (∀ o it, hstack o it = (Err e, it)) →
           Indexer_getitem_slice hstack (Indexer_init xs L) start stop step
           = (Err e, Indexer_init xs L))
     ∧ (∀ stack, (∀ o it, hstack o it = hstack_reads stack o it) →
           Indexer_getitem_slice hstack (Indexer_init xs L) start stop step
           = (stack (strided (Z.to_nat (default 1 step))
                       (take (Z.to_nat (default L stop) - Z.to_nat (default 0 start))
                             (drop (Z.to_nat (default 0 start)) xs))),
              Indexer_init
                (drop (Z.to_nat (Z.max (default 0 start) (default L stop))) xs) L))).
Proof.
  split_and!.
  - intros Hout. unfold Indexer_getitem_slice. cbn [_iterlen Indexer_init].
    by rewrite check_limits_outside.
  - intros Hin Hstep. unfold Indexer_getitem_slice. cbn [_iterlen Indexer_init].
    rewrite check_limits_within by done. by rewrite bool_decide_true.
  - intros Hin Hstep. split.
    + intros e He. unfold Indexer_getitem_slice. cbn [_iterlen _iterobj Indexer_init].
      rewrite check_limits_within by done.
      rewrite bool_decide_false by lia. by rewrite He.
    + intros stack Hreads.
      rewrite <-(Indexer_getitem_slice_reads stack xs L start stop step Hin Hstep).
      unfold Indexer_getitem_slice. cbn [_iterlen _iterobj Indexer_init].
      by rewrite Hreads.
Qed.

(** On seven elements: a start at the length, a step of 0, and the slice
    [1:6:2] with an [np.hstack] that refuses the object and with one that
    reads it. *)
Lemma Indexer_slice_access_witness :
  Indexer_getitem_slice (hstack_reads np_hstack_1d)
                        (Indexer_init [[10]; [11]; [12]; [13]; [14]; [15]; [16]] 7)
                        (Some 7) None None
  = (Err (SPWValueError (LegalBetween 0 7) "idx" (ActualSlice 7 7)),
     Indexer_init [[10]; [11]; [12]; [13]; [14]; [15]; [16]] 7)
  ∧ Indexer_getitem_slice (hstack_reads np_hstack_1d)
                          (Indexer_init [[10]; [11]; [12]; [13]; [14]; [15]; [16]] 7)
                          (Some 1) (Some 6) (Some 0)
    = (Err ValueError, Indexer_init [[10]; [11]; [12]; [13]; [14]; [15]; [16]] 7)
  ∧ Indexer_getitem_slice (B:=list Z) (λ _ it, (Err TypeError, it))
                          (Indexer_init [[10]; [11]; [12]; [13]; [14]; [15]; [16]] 7)
                          (Some 1) (Some 6) (Some 2)
    = (Err TypeError, Indexer_init [[10]; [11]; [12]; [13]; [14]; [15]; [16]] 7)
  ∧ Indexer_getitem_slice (hstack_reads np_hstack_1d)
                          (Indexer_init [[10]; [11]; [12]; [13]; [14]; [15]; [16]] 7)
                          (Some 1) (Some 6) (Some 2)
    = (Ok [11; 13; 15], Indexer_init [[16]] 7).
Proof.
  split_and!.
  - exact (proj1 (Indexer_slice_access (hstack_reads np_hstack_1d)
                    [[10]; [11]; [12]; [13]; [14]; [15]; [16]] 7 (Some 7) None None)
             (λ H : within (7, 7) 7, ltac:(unfold within in H; simpl in H; lia))).
  - exact (proj1 (proj2 (Indexer_slice_access (hstack_reads np_hstack_1d)
                           [[10]; [11]; [12]; [13]; [14]; [15]; [16]] 7
                           (Some 1) (Some 6) (Some 0)))
             ltac:(unfold within; simpl; lia) ltac:(simpl; lia)).
  - exact (proj1 (proj2 (proj2 (Indexer_slice_access (B:=list Z)
                                  (λ _ it, (Err TypeError, it))
                                  [[10]; [11]; [12]; [13]; [14]; [15]; [16]] 7
                                  (Some 1) (Some 6) (Some 2)))
                    ltac:(unfold within; simpl; lia) ltac:(simpl; lia))
             TypeError (λ _ _, eq_refl)).
  - exact (proj2 (proj2 (proj2 (Indexer_slice_access (hstack_reads np_hstack_1d)
                                  [[10]; [11]; [12]; [13]; [14]; [15]; [16]] 7
                                  (Some 1) (Some 6) (Some 2)))
                    ltac:(unfold within; simpl; lia) ltac:(simpl; lia))
             np_hstack_1d (λ _ _, eq_refl)).
Defined.

(** X9: with an [np.hstack] that iterates over its argument and raises
    [ValueError] when it finds no array, [self[i:i+1]] draws the same
    element as [self[i]], stacks it alone, and leaves the iterator in the
    same place; at the end of the producer, where [self[i]] raises
    [StopIteration], the slice raises the [ValueError] of [np.hstack]. *)
Theorem Indexer_index_as_slice {A B} (stack : list A → res B) (xs : list A)
    (L i : Z) :
  0 ≤ i < L → stack [] = Err ValueError →
  Indexer_getitem_slice (hstack_reads stack) (Indexer_init xs L)
                        (Some i) (Some (i + 1)) None
  = (match (Indexer_getitem (Indexer_init xs L) i).1 with
     | Ok x => stack [x]
     | Err _ => Err ValueError
     end,
     (Indexer_getitem (Indexer_init xs L) i).2).
Proof.
  intros Hi Hempty. rewrite Indexer_getitem_list by done.
  rewrite Indexer_getitem_slice_reads by (unfold within; simpl; lia).
  cbn [default from_option fst snd]. unfold id.
  replace (Z.to_nat (i `max` (i + 1))) with (S (Z.to_nat i)) by lia.
  replace (Z.to_nat (i + 1) - Z.to_nat i)%nat with 1%nat by lia.
  f_equal. unfold yielded.
  assert (xs !! Z.to_nat i = drop (Z.to_nat i) xs !! 0%nat) as ->
    by (by rewrite lookup_drop, Nat.add_0_r).
  destruct (drop (Z.to_nat i) xs); [exact Hempty | reflexivity].
Qed.

(** Index 3 on a producer of three arrays, and index 1. *)
Lemma Indexer_index_as_slice_witness :
  Indexer_getitem_slice (hstack_reads np_hstack_1d) (Indexer_init [[10]; [11]; [12]] 5)
                        (Some 3) (Some (3 + 1)) None
  = (Err ValueError, Indexer_init [] 5)
  ∧ Indexer_getitem_slice (hstack_reads np_hstack_1d) (Indexer_init [[10]; [11]; [12]] 5)
                          (Some 1) (Some (1 + 1)) None
    = (Ok [11], Indexer_init [[12]] 5).
Proof.
  split.
  - exact (Indexer_index_as_slice np_hstack_1d [[10]; [11]; [12]] 5 3 ltac:(lia) eq_refl).
  - exact (Indexer_index_as_slice np_hstack_1d [[10]; [11]; [12]] 5 1 ltac:(lia) eq_refl).
Defined.

Lemma next_islice_each_list {A} (xs : list A) c idx :
  Forall (λ i, 0 ≤ i) idx →
  next_islice_each (drop c xs) idx
  = (mapM (yielded xs) (cursor_positions c (Z.to_nat <$> idx)),
     drop (c + sum_list ((λ i, S (Z.to_nat i)) <$> idx)) xs).
Proof.
  intros Hidx. revert c. induction Hidx as [|i idx Hi _ IH]; intros c.
  - simpl. by rewrite Nat.add_0_r.
  - cbn [next_islice_each]. rewrite bool_decide_false by lia.
    rewrite next_islice_list, yielded_drop, drop_drop. csimpl.
    destruct (yielded xs (c + Z.to_nat i)) as [x|e] eqn:Hy.
    + rewrite IH. cbn [fst snd mbind res_bind].
      replace (c + Z.to_nat i + 1)%nat with (c + S (Z.to_nat i))%nat by lia.
      f_equal. f_equal. lia.
    + apply yielded_Err in Hy. cbn [mbind res_bind]. f_equal.
      rewrite !drop_ge by lia. done.
Qed.

(** X10: access with a list of non-negative indices that the validation
    lets pass, on an indexer over a list iterator.  The indices are taken
    one after the other from the cursor: [np.hstack] gets the elements at
    the positions [i_0], [i_0 + 1 + i_1], ..., and as soon as one of these
    lies beyond the producer the access ends with [StopIteration]. *)
Theorem Indexer_array_access {A B}
    (spw_array_parser : list Z → string → Z * Z → res unit)
    (hstack : list A → res B) (xs : list A) (L : Z) idx :
  spw_array_parser idx "idx" (0, L) = Ok () →
  Forall (λ i, 0 ≤ i) idx →
  Indexer_getitem_array spw_array_parser hstack (Indexer_init xs L) idx
  = (mapM (yielded xs) (cursor_positions 0 (Z.to_nat <$> idx)) ≫= hstack,
     Indexer_init (drop (sum_list ((λ i, S (Z.to_nat i)) <$> idx)) xs) L).
Proof.
  intros Hp Hidx. unfold Indexer_getitem_array. cbn [_iterlen _iterobj Indexer_init].
  rewrite Hp. pose proof (next_islice_each_list xs 0 idx Hidx) as Hn.
  rewrite drop_0 in Hn. by rewrite Hn.
Qed.

(** The index array [0, 1, 2] on a producer of five elements: the third
    position is 5, behind the producer. *)
Lemma Indexer_array_access_witness :
  Indexer_getitem_array (λ _ _ _, Ok ()) (λ l, Ok l)
                        (Indexer_init [10; 11; 12; 13; 14] 5) [0; 1; 2]
  = (Err StopIteration, Indexer_init [] 5).
Proof.
  exact (Indexer_array_access (λ _ _ _, Ok ()) (λ l, Ok l) [10; 11; 12; 13; 14] 5
           [0; 1; 2] eq_refl ltac:(repeat constructor; lia)).
Defined.


(** ** Segments of a [BaseData] object *)

Section Segments.
Context {T : Type} (self : BaseData) (cd : ChunkData) (arrs : list ndarray)
        (trialinfo : list (Z * Z)).
Context (Hv : valid cd arrs) (Hcd : _chunks self = Some cd)
        (Hti : _trialinfo self = Some trialinfo) (HM : 0 < _M cd).
Implicit Types (σ : store T).

Lemma get_segment_ok σ segno t :
  chunks_in_store σ cd → trialinfo !! segno = Some t → within t (_N cd) →
  ∃ r σ',
    BaseData_get_segment self segno σ = Ok (r, σ')
    ∧ σ `prefix_of` σ'
    ∧ contents σ' r = select_cols t.1 t.2 (all_rows σ cd)
    ∧ shape r = (_M cd, Z.max 0 (t.2 - t.1)).
Proof.
  intros Hσ Ht Hin. unfold BaseData_get_segment, list_get.
  rewrite Hcd, Hti. cbn [getattr mbind res_bind]. rewrite Ht. cbn [mbind res_bind].
  destruct (getitem_matrix_rows cd arrs σ (SSlice None None)
              (SSlice (Some t.1) (Some t.2)) 0 (_M cd) t.1 t.2 Hv Hσ eq_refl eq_refl
              ltac:(unfold within; simpl; lia) ltac:(by destruct t) HM)
    as (r & σ' & Hget & Hpre & Hcont & Hshape).
  exists r, σ'. split_and!; [done | done | |].
  - rewrite Hcont, drop_0, take_ge; [done|].
    pose proof (all_rows_length cd arrs Hv σ Hσ). lia.
  - rewrite Hshape. f_equal. lia.
Qed.

Lemma get_segment_fail σ segno t :
  trialinfo !! segno = Some t → ¬ within t (_N cd) →
  BaseData_get_segment self segno σ
  = Err (SPWValueError (LegalBetween 0 (_N cd)) "col" (ActualSlice t.1 t.2)).
Proof.
  intros Ht Hout. unfold BaseData_get_segment, list_get.
  rewrite Hcd, Hti. cbn [getattr mbind res_bind]. rewrite Ht. cbn [mbind res_bind].
  apply (getitem_check_col cd σ (SSlice None None) (SSlice (Some t.1) (Some t.2))
           (0, _M cd) (t.1, t.2) eq_refl eq_refl).
  - unfold within. simpl. lia.
  - by destruct t.
Qed.

(** The [map] object at trial [k], asked for the element [start] positions
    further on: the trials [k], ..., [k + start] are all computed. *)
Lemma next_islice_map_segments σ start k t :
  chunks_in_store σ cd →
  trialinfo !! (k + start)%nat = Some t →
  Forall (λ t, within t (_N cd)) (take (S start) (drop k trialinfo)) →
  ∃ r σ',
    next_islice_map (BaseData_get_segment self) start
                    (seq k (length trialinfo - k)) σ
    = (Ok (r, σ'), seq (S (k + start)) (length trialinfo - S (k + start)))
    ∧ σ `prefix_of` σ'
    ∧ contents σ' r = select_cols t.1 t.2 (all_rows σ cd)
    ∧ shape r = (_M cd, Z.max 0 (t.2 - t.1)).
Proof.
  revert k σ. induction start as [|start IH]; intros k σ Hσ Ht Hall.
  - rewrite Nat.add_0_r in *. pose proof (lookup_lt_Some _ _ _ Ht) as Hk.
    replace (length trialinfo - k)%nat with (S (length trialinfo - S k)) by lia.
    cbn [seq next_islice_map next list_iterator].
    rewrite (drop_S _ _ _ Ht) in Hall. apply Forall_cons in Hall as [Hin _].
    destruct (get_segment_ok σ k t Hσ Ht Hin) as (r & σ' & -> & Hrest).
    by exists r, σ'.
  - pose proof (lookup_lt_Some _ _ _ Ht) as Hk.
    destruct (lookup_lt_is_Some_2 trialinfo k) as [tk Htk]; [lia|].
    replace (length trialinfo - k)%nat with (S (length trialinfo - S k)) by lia.
    cbn [seq next_islice_map next list_iterator].
    rewrite (drop_S _ _ _ Htk) in Hall. apply Forall_cons in Hall as [Hin Hall].
    destruct (get_segment_ok σ k tk Hσ Htk Hin) as (r0 & σ0 & -> & Hpre0 & _).
    destruct (IH (S k) σ0) as (r & σ' & Hnext & Hpre & Hcont & Hshape).
    + by eapply chunks_in_store_prefix.
    + by replace (S k + start)%nat with (k + S start)%nat by lia.
    + done.
    + exists r, σ'. replace (k + S start)%nat with (S k + start)%nat by lia.
      split_and!; [done | by etrans | | done].
      by rewrite Hcont, (all_rows_prefix σ σ0 cd Hpre0 Hσ).
Qed.

(** The same when trial [k + j] is the first one out of range, for a
    [j <= start]. *)
Lemma next_islice_map_segments_fail σ start k j t :
  chunks_in_store σ cd → (j ≤ start)%nat →
  trialinfo !! (k + j)%nat = Some t → ¬ within t (_N cd) →
  Forall (λ t, within t (_N cd)) (take j (drop k trialinfo)) →
  next_islice_map (BaseData_get_segment self) start
                  (seq k (length trialinfo - k)) σ
  = (Err (SPWValueError (LegalBetween 0 (_N cd)) "col" (ActualSlice t.1 t.2)),
     seq (S (k + j)) (length trialinfo - S (k + j))).
Proof.
  revert start k σ. induction j as [|j IH]; intros start k σ Hσ Hj Ht Hout Hall.
  - rewrite Nat.add_0_r in *. pose proof (lookup_lt_Some _ _ _ Ht) as Hk.
    replace (length trialinfo - k)%nat with (S (length trialinfo - S k)) by lia.
    destruct start; cbn [seq next_islice_map next list_iterator];
      by rewrite (get_segment_fail σ k t Ht Hout).
  - pose proof (lookup_lt_Some _ _ _ Ht) as Hk.
    destruct (lookup_lt_is_Some_2 trialinfo k) as [tk Htk]; [lia|].
    replace (length trialinfo - k)%nat with (S (length trialinfo - S k)) by lia.
    destruct start as [|start]; [lia|].
    cbn [seq next_islice_map next list_iterator].
    rewrite (drop_S _ _ _ Htk) in Hall. apply Forall_cons in Hall as [Hin Hall].
    destruct (get_segment_ok σ k tk Hσ Htk Hin) as (r0 & σ0 & -> & Hpre0 & _).
    replace (k + S j)%nat with (S k + j)%nat in * by lia.
    apply IH; [by eapply chunks_in_store_prefix | lia | done..].
Qed.
End Segments.







Lemma dtype_wrap_exact dt z : in_dtype dt z → dtype_wrap dt z = z.
Proof.
  unfold in_dtype, dtype_wrap.
  destruct dt; cbn [dtype_signed dtype_bits]; intros Hz.
  all: rewrite Z.mod_small; lia.
Qed.


(** In an unsigned type the difference of a trial that ends one sample
    before it starts is the largest number of the type. *)
Example segmentshapes_uint64_wraps : dtype_wrap UInt64 (1 - 2) = 2 ^ 64 - 1.
Proof. reflexivity. Qed.

(** ** The segment label *)

Lemma options_text_eq : options_text = "trial, other".
Proof. reflexivity. Qed.

Section SegmentLabelFacts.
Context {W E : Type}.
Variable spw_warning : string → string → W → option E * W.

Lemma setter_fields v (st : bool * BaseData * W) :
  let st' := (BaseData_segmentlabel_setter spw_warning v st).2 in
  _dimlabels st'.1.2 = _dimlabels st.1.2
  ∧ _chunks st'.1.2 = _chunks st.1.2
  ∧ _trialinfo st'.1.2 = _trialinfo st.1.2.
Proof.
  destruct st as [[cls self] w]. unfold BaseData_segmentlabel_setter.
  destruct v as [s|]; [|done].
  destruct (decide (s ∈ options)); [|done].
  destruct (_segmentlabel self) as [cur|]; [|done].
  by destruct (decide (cur ≠ s)).
Qed.

Lemma assignments_state vals (st : bool * BaseData * W) :
  let st' := assignments spw_warning vals st in
  _segmentlabel st'.1.2
  = match _segmentlabel st.1.2 with
    | Some l => Some l
    | None => head (valid_labels vals)
    end
  ∧ st'.1.1
    = st.1.1 || bool_decide (_segmentlabel st.1.2 = None
                              ∧ head (valid_labels vals) = Some "trial")
  ∧ _dimlabels st'.1.2 = _dimlabels st.1.2
  ∧ _chunks st'.1.2 = _chunks st.1.2
  ∧ _trialinfo st'.1.2 = _trialinfo st.1.2.
Proof.
  revert st. induction vals as [|v vals IH]; intros st.
  - simpl. split_and!; try done.
    + by destruct (_segmentlabel st.1.2).
    + rewrite bool_decide_eq_false_2; [by rewrite orb_false_r | by intros [_ ?]].
  - pose proof (setter_fields v st) as (Hd & Hc & Ht).
    specialize (IH (BaseData_segmentlabel_setter spw_warning v st).2).
    unfold assignments in *. cbn [foldl]. cbn zeta in *.
    destruct IH as (IHl & IHc & IHd & IHch & IHt).
    rewrite IHl, IHc, IHd, IHch, IHt, Hd, Hc, Ht. clear IHl IHc IHd IHch IHt Hd Hc Ht.
    split_and!; try done.
    + destruct st as [[cls self] w]. unfold BaseData_segmentlabel_setter, valid_labels.
      cbn [omap list_omap fst snd].
      destruct v as [s|]; [|done].
      destruct (decide (s ∈ options)); [|done].
      destruct (_segmentlabel self) as [cur|] eqn:Hcur.
      * destruct (decide (cur ≠ s)); simpl; by rewrite Hcur.
      * done.
    + destruct st as [[cls self] w]. unfold BaseData_segmentlabel_setter, valid_labels.
      cbn [omap list_omap fst snd].
      destruct v as [s|]; [|done].
      destruct (decide (s ∈ options)); [|done].
      destruct (_segmentlabel self) as [cur|] eqn:Hcur.
      * destruct (decide (cur ≠ s)); simpl; rewrite Hcur;
          rewrite !bool_decide_eq_false_2; try done; by intros [? _].
      * cbn [fst snd set_segmentlabel _segmentlabel head].
        rewrite (bool_decide_eq_false_2 (Some s = None ∧ _)); [|by intros [? _]].
        rewrite orb_false_r. f_equal. apply bool_decide_ext.
        split; [by intros -> | by intros [_ [= ->]]].
Qed.
End SegmentLabelFacts.

(** X15: the segment label is written once.  Whatever is assigned to
    [obj.segmentlabel] and in whatever order, a label that is set stays,
    and an unset label becomes the first assigned value that is one of
    the strings ["trial"] and ["other"]; values before it are refused and
    values after it are dropped (with a warning, when they differ).  The
    other attributes of the object are not touched. *)
Theorem segmentlabel_write_once {W E} (spw_warning : string → string → W → option E * W)
    vals cls self w :
  let st' := assignments spw_warning vals (cls, self, w) in
  _segmentlabel st'.1.2
  = match _segmentlabel self with
    | Some l => Some l
    | None => head (valid_labels vals)
    end
  ∧ _dimlabels st'.1.2 = _dimlabels self
  ∧ _chunks st'.1.2 = _chunks self
  ∧ _trialinfo st'.1.2 = _trialinfo self.
Proof.
  pose proof (assignments_state spw_warning vals (cls, self, w)) as H.
  cbn zeta in *. cbn [fst snd] in H. tauto.
Qed.

(** X16: the properties [trial], [trialinfo] and [sampleinfo] are set on
    the class, not on the object.  After assignments to the segment label
    of one object, [other.trial] of any object [other] exists exactly
    when it existed before or the first object had no label and the first
    accepted value was ["trial"], whatever the label of [other] is; it
    then gives the segments of [other]. *)
Theorem trial_property_shared {W E} (spw_warning : string → string → W → option E * W)
    vals cls self w other :
  BaseData_trial (assignments spw_warning vals (cls, self, w)).1.1 other
  = if cls || bool_decide (_segmentlabel self = None
                           ∧ head (valid_labels vals) = Some "trial")
    then Ok (BaseData_segments other)
    else Err AttributeError.
Proof.
  pose proof (assignments_state spw_warning vals (cls, self, w)) as (_ & H & _).
  cbn [fst snd] in H. by rewrite H.
Qed.

(** ** The block-wise copy of [read_nwb] *)

Lemma dataset_rows_range {T} (data : list (list T)) a b :
  0 ≤ a ≤ b → b ≤ Z.of_nat (length data) →
  dataset_rows data (Slice (Some a) (Some b))
  = take (Z.to_nat (b - a)) (drop (Z.to_nat a) data).
Proof.
  intros Ha Hb. unfold dataset_rows.
  by rewrite slice_indices_range by lia.
Qed.

Lemma block_rows_join {T} (data : list (list T)) ns rem q k :
  0 < ns → 0 ≤ rem < ns →
  Z.of_nat (length data) = (Z.of_nat k + Z.of_nat q) * ns + rem →
  mjoin (dataset_rows data
           <$> imap (λ m M, Slice (Some (Z.of_nat (k + m) * ns))
                                  (Some (Z.of_nat (k + m) * ns + M)))
                    (replicate q ns ++ replicate (Z.to_nat (Z.b2z (0 <? rem))) rem))
  = drop (Z.to_nat (Z.of_nat k * ns)) data.
Proof.
  intros Hns Hrem. revert k. induction q as [|q IH]; intros k Hlen.
  - cbn [replicate app]. destruct (Z.ltb_spec 0 rem) as [Hpos|Hzero].
    + change (Z.to_nat (Z.b2z true)) with 1%nat.
      cbn [replicate imap fmap list_fmap mjoin list_join].
      rewrite Nat.add_0_r, app_nil_r, dataset_rows_range by lia.
      apply take_ge. rewrite length_drop. lia.
    + change (Z.to_nat (Z.b2z false)) with 0%nat.
      cbn [replicate imap fmap list_fmap mjoin list_join].
      symmetry. apply drop_ge. lia.
  - cbn [replicate app]. rewrite imap_cons, fmap_cons. cbn [mjoin list_join].
    rewrite Nat.add_0_r, dataset_rows_range by nia.
    rewrite (imap_ext _ (λ m M, Slice (Some (Z.of_nat (S k + m) * ns))
                                      (Some (Z.of_nat (S k + m) * ns + M))));
      last first.
    { intros m M _. simpl. do 3 f_equal; lia. }
    rewrite IH by lia.
    replace (Z.to_nat (Z.of_nat (S k) * ns))
      with (Z.to_nat (Z.of_nat k * ns) + Z.to_nat ns)%nat by nia.
    rewrite <-drop_drop.
    replace (Z.to_nat (Z.of_nat k * ns + ns - Z.of_nat k * ns)) with (Z.to_nat ns) by lia.
    apply take_drop.
Qed.

(** X17: the blocks of [read_nwb] tile the data set.  With room for at
    least one row per block ([nSamp > 0]), a data set is read in
    [ceil(n / nSamp)] blocks of one to [nSamp] rows each, and the blocks
    read one after the other are the data set: every row is copied once,
    in order, and none is left out. *)
Theorem read_nwb_blocks_tile {T} (data : list (list T)) nSamp :
  0 < nSamp →
  ∃ blocks,
    nBlocks (Z.of_nat (length data)) nSamp = Some blocks
    ∧ Forall (λ M, 0 < M ≤ nSamp) blocks
    ∧ Z.of_nat (length blocks) = (Z.of_nat (length data) + nSamp - 1) `div` nSamp
    ∧ mjoin (dataset_rows data <$> block_slices nSamp blocks) = data.
Proof.
  intros Hns. set (n := Z.of_nat (length data)).
  pose proof (Z.mod_pos_bound n nSamp Hns) as Hrem.
  pose proof (Z.div_mod n nSamp ltac:(lia)) as Hdm.
  assert (0 ≤ n `div` nSamp) as Hq by (apply Z.div_pos; lia).
  unfold nBlocks. destruct (decide (nSamp = 0)); [lia|].
  eexists. split; [done|]. split_and!.
  - apply Forall_app. split.
    + apply Forall_replicate. lia.
    + destruct (Z.ltb_spec 0 (n `mod` nSamp)); simpl; [|constructor].
      repeat constructor; lia.
  - rewrite length_app, !length_replicate.
    apply (Z.div_unique_pos _ _ _
      (if 0 <? n `mod` nSamp then n `mod` nSamp - 1 else nSamp - 1)).
    + destruct (Z.ltb_spec 0 (n `mod` nSamp)); lia.
    + destruct (Z.ltb_spec 0 (n `mod` nSamp)); simpl; nia.
  - unfold block_slices.
    pose proof (block_rows_join data nSamp (n `mod` nSamp)
                  (Z.to_nat (n `div` nSamp)) 0 Hns Hrem) as H.
    rewrite drop_0 in H. apply H. fold n. lia.
Qed.

Lemma read_nwb_blocks_tile_witness :
  ∃ blocks,
    nBlocks 5 2 = Some blocks
    ∧ Forall (λ M, 0 < M ≤ 2) blocks
    ∧ Z.of_nat (length blocks) = 3
    ∧ mjoin (dataset_rows [[1]; [2]; [3]; [4]; [5]] <$> block_slices 2 blocks)
      = [[1]; [2]; [3]; [4]; [5]].
Proof.
  exact (read_nwb_blocks_tile [[1]; [2]; [3]; [4]; [5]] 2 ltac:(lia)).
Defined.
